(** * containerbuddy/ips.go: resolving the address a container advertises

    A shallow embedding of [src/containerbuddy/ips.go] and of the parts of
    the Go standard library it calls ([strings], [bytes], [strconv], [fmt],
    [regexp] through the one compiled pattern, [net], [sort]), followed by
    the properties of the specification that were checked against it.

    Conventions.
    - A Go [string] is a [string] (a sequence of 8-bit characters).
    - A Go [byte] is a [Byte.byte]; [net.IP], [net.IPMask] and [[]byte] are
      [list byte]; a nil slice is the empty list.  Where the source tests a
      slice against nil the model returns an [option].
    - A Go [int] is a 64-bit two's complement integer, carried as a [Z]
      with the wrap-around written out ([int_wrap]).
    - A Go [error] is [option string]: [None] is nil, [Some m] an error
      whose [Error()] is [m].
    - Calls to the operating system and writes to the standard error stream
      are recorded as a trace of [event]s in the writer monad [IO].

    The library models follow the Go 1.5 sources ([strings.Compare], which
    the program uses, first shipped with that release). *)

From Stdlib Require Import ZArith List String Ascii Bool Lia.
From Stdlib Require Import Sorting.Sorted Sorting.Permutation.
From Stdlib Require Strings.Byte.
Import ListNotations.

Local Open Scope string_scope.
Local Open Scope list_scope.
Local Open Scope Z_scope.

(** ** Basic Go data *)

Definition byte := Byte.byte.

(** [uint(b)] for a byte [b]. *)
Definition u8 (b : byte) : Z := Z.of_N (Byte.to_N b).

(** [byte(n)]: conversion of an integer to a byte keeps the low 8 bits. *)
Definition mkbyte (n : Z) : byte :=
  match Byte.of_N (Z.to_N (n mod 256)) with
  | Some b => b
  | None => Byte.x00
  end.

(** [s[i]] as an integer, for a character of a string. *)
Definition code (c : ascii) : Z := Z.of_N (N_of_ascii c).

Definition error := option string.

(** Go's [int] on the 64-bit targets. *)
Definition MaxInt : Z := 2 ^ 63 - 1.
Definition int_wrap (n : Z) : Z := (n + 2 ^ 63) mod 2 ^ 64 - 2 ^ 63.

Arguments int_wrap : simpl never.

(** The line feed written ["\n"] in the source. *)
Definition LF : string := String (ascii_of_nat 10) "".

Definition isDigit (c : ascii) : bool := (48 <=? code c) && (code c <=? 57).

(** ** Lexicographic three-way comparison, as Go compares strings and
       byte slices. *)

Fixpoint lex_compare {A : Type} (key : A -> Z) (a b : list A) : comparison :=
  match a, b with
  | [], [] => Eq
  | [], _ :: _ => Lt
  | _ :: _, [] => Gt
  | x :: a', y :: b' =>
      match key x ?= key y with
      | Eq => lex_compare key a' b'
      | c => c
      end
  end.

Definition int_of_comparison (c : comparison) : Z :=
  match c with Eq => 0 | Lt => -1 | Gt => 1 end.

Module strings.

(** [strings.Compare(a, b)]: 0 if [a == b], -1 if [a < b], +1 otherwise. *)
Definition Compare (a b : string) : Z :=
  int_of_comparison
    (lex_compare code (list_ascii_of_string a) (list_ascii_of_string b)).

(** [strings.Join(a, sep)]. *)
Fixpoint Join (a : list string) (sep : string) : string :=
  match a with
  | [] => ""
  | [x] => x
  | x :: rest => (x ++ sep ++ Join rest sep)%string
  end.

(** [strings.Split(s, sep)] for a separator of one character [sep]: the
    pieces between the occurrences of [sep]; one more piece than there
    are separators, so the empty string gives one empty piece. *)
Fixpoint Split1 (s : string) (sep : ascii) : list string :=
  match s with
  | "" => [""]
  | String c s' =>
      if Ascii.eqb c sep then "" :: Split1 s' sep
      else match Split1 s' sep with
           | piece :: rest => String c piece :: rest
           | [] => [String c ""]
           end
  end.

(** [strings.Index(s, string(c)) >= 0] *)
Fixpoint ContainsByte (s : string) (c : ascii) : bool :=
  match s with
  | "" => false
  | String d s' => Ascii.eqb d c || ContainsByte s' c
  end.

End strings.

Module bytes.

(** [bytes.Compare(a, b)]; a nil argument is an empty slice. *)
Definition Compare (a b : list byte) : Z :=
  int_of_comparison (lex_compare u8 a b).

End bytes.

Module strconv.

Fixpoint digits_value (s : string) (acc : Z) : option Z :=
  match s with
  | "" => Some acc
  | String c s' =>
      if isDigit c then digits_value s' (acc * 10 + (code c - 48))
      else None
  end.

(** [strconv.Atoi(s)], that is [ParseInt(s, 10, 0)]: an optional sign,
    then one or more decimal digits; the value has to fit an [int].
    [None] stands for the two errors ([ErrSyntax], [ErrRange]), which the
    program does not tell apart. *)
Definition Atoi (s : string) : option Z :=
  let '(neg, body) :=
    match s with
    | String c r =>
        if Ascii.eqb c "+" then (false, r)
        else if Ascii.eqb c "-" then (true, r)
        else (false, s)
    | "" => (false, s)
    end in
  match body with
  | "" => None
  | _ =>
      match digits_value body 0 with
      | None => None
      | Some un =>
          if neg then (if un <=? MaxInt + 1 then Some (- un) else None)
          else (if un <=? MaxInt then Some un else None)
      end
  end.

End strconv.

Module utf8.

Definition RuneError : Z := 65533.   (* U+FFFD *)
Definition MaxRune : Z := 1114111.   (* U+10FFFF *)

(** A continuation byte is in [0x80, 0xC0). *)
Definition notCont (b : Z) : bool := (b <? 128) || (192 <=? b).

(** [utf8.DecodeRuneInString(s)]: the rune at the head of [s] and its
    width in bytes; [(RuneError, 1)] for an invalid encoding and
    [(RuneError, 0)] for the empty string. *)
Definition DecodeRuneInString (s : string) : Z * nat :=
  match s with
  | "" => (RuneError, 0%nat)
  | String c0 s1 =>
      let b0 := code c0 in
      if b0 <? 128 then (b0, 1%nat)
      else if b0 <? 192 then (RuneError, 1%nat)
      else
        match s1 with
        | "" => (RuneError, 1%nat)
        | String c1 s2 =>
            let b1 := code c1 in
            if notCont b1 then (RuneError, 1%nat)
            else if b0 <? 224 then
              let r := Z.lor (Z.shiftl (Z.land b0 31) 6) (Z.land b1 63) in
              if r <=? 127 then (RuneError, 1%nat) else (r, 2%nat)
            else
              match s2 with
              | "" => (RuneError, 1%nat)
              | String c2 s3 =>
                  let b2 := code c2 in
                  if notCont b2 then (RuneError, 1%nat)
                  else if b0 <? 240 then
                    let r := Z.lor (Z.lor (Z.shiftl (Z.land b0 15) 12)
                                          (Z.shiftl (Z.land b1 63) 6))
                                   (Z.land b2 63) in
                    if r <=? 2047 then (RuneError, 1%nat)
                    else if (55296 <=? r) && (r <=? 57343)
                         then (RuneError, 1%nat)
                    else (r, 3%nat)
                  else
                    match s3 with
                    | "" => (RuneError, 1%nat)
                    | String c3 _ =>
                        let b3 := code c3 in
                        if notCont b3 then (RuneError, 1%nat)
                        else if b0 <? 248 then
                          let r :=
                            Z.lor (Z.lor (Z.lor (Z.shiftl (Z.land b0 7) 18)
                                                (Z.shiftl (Z.land b1 63) 12))
                                         (Z.shiftl (Z.land b2 63) 6))
                                  (Z.land b3 63) in
                          if (r <=? 65535) || (MaxRune <? r)
                          then (RuneError, 1%nat)
                          else (r, 4%nat)
                        else (RuneError, 1%nat)
                    end
              end
        end
  end.

Definition chr (n : Z) : ascii := ascii_of_N (Z.to_N (n mod 256)).

(** [bytes.Buffer.WriteRune(r)]: the UTF-8 encoding of [r]; a surrogate
    or a value above [MaxRune] is written as [RuneError]. *)
Definition EncodeRune (r : Z) : string :=
  if r <=? 127 then String (chr r) ""
  else if r <=? 2047 then
    String (chr (Z.lor 192 (Z.shiftr r 6)))
      (String (chr (Z.lor 128 (Z.land r 63))) "")
  else
    let r := if (MaxRune <? r) || ((55296 <=? r) && (r <=? 57343))
             then RuneError else r in
    if r <=? 65535 then
      String (chr (Z.lor 224 (Z.shiftr r 12)))
        (String (chr (Z.lor 128 (Z.land (Z.shiftr r 6) 63)))
           (String (chr (Z.lor 128 (Z.land r 63))) ""))
    else
      String (chr (Z.lor 240 (Z.shiftr r 18)))
        (String (chr (Z.lor 128 (Z.land (Z.shiftr r 12) 63)))
           (String (chr (Z.lor 128 (Z.land (Z.shiftr r 6) 63)))
              (String (chr (Z.lor 128 (Z.land r 63))) ""))).

End utf8.

(** [len(s) > 0 && s[0] == c] *)
Definition startsWith (s : string) (c : ascii) : bool :=
  match s with
  | String d _ => Ascii.eqb d c
  | "" => false
  end.

(** [s[1:]], for a string that is not empty. *)
Definition tail (s : string) : string :=
  match s with
  | String _ r => r
  | "" => ""
  end.

Fixpoint dropn (n : nat) (s : string) : string :=
  match n, s with
  | O, _ => s
  | S n', String _ s' => dropn n' s'
  | S _, "" => ""
  end.

Module fmt.

(** The formatting of [fmt.Errorf(format)] and [fmt.Sprintf(format)]
    called with a format and NO operand, which is how the program builds
    its two aggregated errors.  This is [doPrintf] of fmt/print.go with
    [len(a) = 0]: text is copied up to the next ['%']; after it come
    flags, an optional argument index, a width, a precision and the verb.
    With no operand to print, every verb but ['%'] is reported in the
    output. *)

Definition isFlag (c : ascii) : bool :=
  match c with
  | "#"%char | "0"%char | "+"%char | "-"%char | " "%char => true
  | _ => false
  end.

Fixpoint skipFlags (s : string) : string :=
  match s with
  | String c s' => if isFlag c then skipFlags s' else s
  | "" => ""
  end.

(** [parsenum]: skips decimal digits; tells whether there was one. *)
Fixpoint parsenum (s : string) : string * bool :=
  match s with
  | String c s' =>
      if isDigit c then (fst (parsenum s'), true) else (s, false)
  | "" => ("", false)
  end.

(** The text before the first [']'] of [s] and what follows that [']']. *)
Fixpoint untilBracket (s : string) : option (string * string) :=
  match s with
  | "" => None
  | String c s' =>
      if Ascii.eqb c "]" then Some ("", s')
      else match untilBracket s' with
           | Some (inner, rest) => Some (String c inner, rest)
           | None => None
           end
  end.

(** [argNumber] with [numArgs = 0]: an index [[n]] at the head of [s] is
    skipped; it can never be in range, so it always clears
    [goodArgNum].  Returns the rest of the format, [found], and whether
    an opening bracket was seen. *)
Definition argNumber (s : string) : string * bool * bool :=
  if startsWith s "[" then
    match untilBracket (tail s) with
    | Some (inner, rest) =>
        let '(after, isnum) := parsenum inner in
        (rest, isnum && (after =? "")%string, true)
    | None => (tail s, false, true)
    end
  else (s, false, false).

Definition badWidthString := "%!(BADWIDTH)".
Definition badPrecString := "%!(BADPREC)".
Definition noVerbString := "%!(NOVERB)".

(** One verb: [s] is the format after a ['%'].  Returns what is written
    and the rest of the format. *)
Definition verb (s : string) : string * string :=
  let s := skipFlags s in
  (* Do we have an explicit argument index? *)
  let '(s, afterIndex, bad1) := argNumber s in
  (* Do we have width? *)
  let '(out1, s, afterIndex, bad2) :=
    if startsWith s "*" then (badWidthString, tail s, false, false)
    else let '(r, isnum) := parsenum s in
         ("", r, afterIndex, afterIndex && isnum) in
  (* Do we have precision?  [i+1 < end && format[i] == '.'] *)
  let '(out2, s, afterIndex, bad3) :=
    if startsWith s "." && (2 <=? String.length s)%nat then
      let '(r, afterIndex', bad4) := argNumber (tail s) in
      if startsWith r "*"
      then (badPrecString, tail r, false, afterIndex || bad4)
      else ("", fst (parsenum r), afterIndex', afterIndex || bad4)
    else ("", s, afterIndex, false) in
  let '(s, bad5) :=
    if afterIndex then (s, false)
    else let '(r, _, b) := argNumber s in (r, b) in
  let goodArgNum := negb (bad1 || bad2 || bad3 || bad5) in
  match s with
  | "" => ((out1 ++ out2 ++ noVerbString)%string, "")
  | _ =>
      let '(c, w) := utf8.DecodeRuneInString s in
      let rest := dropn w s in
      if c =? 37 then ((out1 ++ out2 ++ "%")%string, rest)
      else if goodArgNum
      then ((out1 ++ out2 ++ "%!" ++ utf8.EncodeRune c ++ "(MISSING)")%string,
            rest)
      else ((out1 ++ out2 ++ "%!" ++ utf8.EncodeRune c ++ "(BADINDEX)")%string,
            rest)
  end.

(** The loop of [doPrintf]; every turn consumes at least one character of
    the format, so [String.length format] turns are enough (see
    [Sprintf0]). *)
Fixpoint doPrintf (fuel : nat) (format : string) : string :=
  match fuel with
  | O => ""
  | S fuel' =>
      match format with
      | "" => ""
      | String c rest =>
          if Ascii.eqb c "%" then
            let '(out, rest') := verb rest in
            (out ++ doPrintf fuel' rest')%string
          else String c (doPrintf fuel' rest)
      end
  end.

Definition Sprintf0 (format : string) : string :=
  doPrintf (String.length format) format.

(** [fmt.Errorf(format)] *)
Definition Errorf0 (format : string) : error := Some (Sprintf0 format).

End fmt.

Module net.

Definition IP := list byte.
Definition IPMask := list byte.

Record IPNet : Type := mkIPNet { netIP : IP; netMask : IPMask }.

Definition IPv4len : Z := 4.
Definition IPv6len : Z := 16.

Definition len {A : Type} (l : list A) : Z := Z.of_nat (List.length l).
Definition at_ (p : list byte) (i : Z) : byte := nth (Z.to_nat i) p Byte.x00.

Definition zeros (n : nat) : list byte := repeat Byte.x00 n.

Definition v4InV6Prefix : list byte := zeros 10 ++ [Byte.xff; Byte.xff].

(** [IPv4(a, b, c, d)]: the 16-byte form of an IPv4 address. *)
Definition IPv4 (a b c d : byte) : IP := v4InV6Prefix ++ [a; b; c; d].

Definition IPv6loopback : IP := zeros 15 ++ [Byte.x01].

Fixpoint bytesEqual (x y : list byte) : bool :=
  match x, y with
  | [], [] => true
  | a :: x', b :: y' => Byte.eqb a b && bytesEqual x' y'
  | _, _ => false
  end.

Definition isZeros (p : list byte) : bool :=
  forallb (fun b => Byte.eqb b Byte.x00) p.

Definition allFF (p : list byte) : bool :=
  forallb (fun b => Byte.eqb b Byte.xff) p.

(** [ip.To4()]; [None] is the nil result. *)
Definition To4 (ip : IP) : option IP :=
  if len ip =? IPv4len then Some ip
  else if (len ip =? IPv6len) && isZeros (firstn 10 ip)
          && Byte.eqb (at_ ip 10) Byte.xff && Byte.eqb (at_ ip 11) Byte.xff
  then Some (skipn 12 ip)
  else None.

(** [ip.To16()]; [None] is the nil result. *)
Definition To16 (ip : IP) : option IP :=
  if len ip =? IPv4len
  then Some (IPv4 (at_ ip 0) (at_ ip 1) (at_ ip 2) (at_ ip 3))
  else if len ip =? IPv6len then Some ip
  else None.

(** [ip.Equal(x)] *)
Definition Equal (ip x : IP) : bool :=
  if len ip =? len x then bytesEqual ip x
  else if (len ip =? IPv4len) && (len x =? IPv6len)
  then bytesEqual (firstn 12 x) v4InV6Prefix && bytesEqual ip (skipn 12 x)
  else if (len ip =? IPv6len) && (len x =? IPv4len)
  then bytesEqual (firstn 12 ip) v4InV6Prefix && bytesEqual (skipn 12 ip) x
  else false.

(** [ip.IsLoopback()] *)
Definition IsLoopback (ip : IP) : bool :=
  match To4 ip with
  | Some ip4 => u8 (at_ ip4 0) =? 127
  | None => Equal ip IPv6loopback
  end.

(** The loop of [CIDRMask]: [l] bytes, of which the first [n] bits are
    set. *)
Fixpoint maskBytes (l : nat) (n : Z) : list byte :=
  match l with
  | O => []
  | S l' =>
      if 8 <=? n then Byte.xff :: maskBytes l' (n - 8)
      else mkbyte (Z.lxor 255 (Z.shiftr 255 n)) :: maskBytes l' 0
  end.

(** [CIDRMask(ones, bits)]; nil when the arguments are out of range. *)
Definition CIDRMask (ones bits : Z) : IPMask :=
  if negb (bits =? 8 * IPv4len) && negb (bits =? 8 * IPv6len) then []
  else if (ones <? 0) || (bits <? ones) then []
  else maskBytes (Z.to_nat (bits / 8)) ones.

Definition band (a b : byte) : byte := mkbyte (Z.land (u8 a) (u8 b)).

Fixpoint andBytes (ip mask : list byte) : list byte :=
  match ip, mask with
  | a :: ip', m :: mask' => band a m :: andBytes ip' mask'
  | _, _ => []
  end.

(** [ip.Mask(mask)]; nil when the lengths do not fit. *)
Definition Mask (ip : IP) (mask : IPMask) : IP :=
  let mask :=
    if (len mask =? IPv6len) && (len ip =? IPv4len) && allFF (firstn 12 mask)
    then skipn 12 mask else mask in
  let ip :=
    if (len mask =? IPv4len) && (len ip =? IPv6len)
       && bytesEqual (firstn 12 ip) v4InV6Prefix
    then skipn 12 ip else ip in
  if len ip =? len mask then andBytes ip mask else [].

(** [networkNumberAndMask(n)]; [None] is the pair of nils. *)
Definition networkNumberAndMask (n : IPNet) : option (IP * IPMask) :=
  let oip :=
    match To4 (netIP n) with
    | Some ip => Some ip
    | None => if len (netIP n) =? IPv6len then Some (netIP n) else None
    end in
  match oip with
  | None => None
  | Some ip =>
      let m := netMask n in
      if len m =? IPv4len then
        (if len ip =? IPv4len then Some (ip, m) else None)
      else if len m =? IPv6len then
        (if len ip =? IPv4len then Some (ip, skipn 12 m) else Some (ip, m))
      else None
  end.

Fixpoint sameUnderMask (nn m ip : list byte) : bool :=
  match nn, m, ip with
  | a :: nn', k :: m', b :: ip' =>
      Byte.eqb (band a k) (band b k) && sameUnderMask nn' m' ip'
  | _, _, _ => true
  end.

(** [n.Contains(ip)] *)
Definition Contains (n : IPNet) (ip : IP) : bool :=
  let '(nn, m) :=
    match networkNumberAndMask n with
    | Some p => p
    | None => ([], [])
    end in
  let ip := match To4 ip with Some x => x | None => ip end in
  if len ip =? len nn then sameUnderMask nn m ip else false.

(** *** parse.go and the parsers of ip.go *)

(** Bigger than we need, not too big to worry about overflow. *)
Definition big : Z := 16777215.   (* 0xFFFFFF *)

(** The loop of [dtoi].  Returns the number read, the text from where
    the loop stopped, and whether it stopped because the number grew to
    [big]. *)
Fixpoint dtoi_loop (s : string) (n : Z) : Z * string * bool :=
  match s with
  | String c s' =>
      if isDigit c then
        let n' := n * 10 + (code c - 48) in
        if big <=? n' then (0, s, true) else dtoi_loop s' n'
      else (n, s, false)
  | "" => (n, "", false)
  end.

(** [dtoi(s, 0)]: decimal to integer.  Returns number, the text after
    it, success. *)
Definition dtoi (s : string) : Z * string * bool :=
  let '(n, rest, over) := dtoi_loop s 0 in
  if over then (0, rest, false)
  else if (String.length rest =? String.length s)%nat then (0, rest, false)
  else (n, rest, true).

Definition hexval (c : ascii) : option Z :=
  let b := code c in
  if (48 <=? b) && (b <=? 57) then Some (b - 48)
  else if (97 <=? b) && (b <=? 102) then Some (b - 97 + 10)
  else if (65 <=? b) && (b <=? 70) then Some (b - 65 + 10)
  else None.

Fixpoint xtoi_loop (s : string) (n : Z) : Z * string * bool :=
  match s with
  | String c s' =>
      match hexval c with
      | Some d =>
          let n' := n * 16 + d in
          if big <=? n' then (0, s, true) else xtoi_loop s' n'
      | None => (n, s, false)
      end
  | "" => (n, "", false)
  end.

(** [xtoi(s, 0)]: hexadecimal to integer. *)
Definition xtoi (s : string) : Z * string * bool :=
  let '(n, rest, over) := xtoi_loop s 0 in
  if over then (0, rest, false)
  else if (String.length rest =? String.length s)%nat then (0, rest, false)
  else (n, rest, true).

(** The loop of [parseIPv4]: [k] octets are still to be read, [first]
    tells whether this is the first of them, [acc] holds those read.
    Returns the octets and the text left over. *)
Fixpoint parseIPv4_loop (k : nat) (first : bool) (s : string)
         (acc : list byte) : option (list byte * string) :=
  match k with
  | O => Some (acc, s)
  | S k' =>
      match s with
      | "" => None                      (* missing octets *)
      | String c r =>
          let afterDot :=
            if first then Some s
            else if Ascii.eqb c "." then Some r else None in
          match afterDot with
          | None => None
          | Some s1 =>
              let '(n, rest, ok) := dtoi s1 in
              if negb ok || (255 <? n) then None
              else parseIPv4_loop k' false rest (acc ++ [mkbyte n])
          end
      end
  end.

(** [parseIPv4(s)]: dotted decimal, to the 16-byte form. *)
Definition parseIPv4 (s : string) : option IP :=
  match parseIPv4_loop 4 true s [] with
  | Some (p, "") => Some (IPv4 (at_ p 0) (at_ p 1) (at_ p 2) (at_ p 3))
  | _ => None
  end.

(** The main loop of [parseIPv6].  [acc] holds the bytes ip[0..j) written
    so far ([j] is its length), [ellipsis] the position of the ellipsis
    or -1.  [None] is the nil result; otherwise the text not consumed,
    the bytes written and the ellipsis.  The loop runs while [j < 16] and
    every turn that goes round again adds two bytes, so eight turns are
    enough. *)
Fixpoint parseIPv6_loop (fuel : nat) (s : string) (acc : list byte)
         (ellipsis : Z) : option (string * list byte * Z) :=
  match fuel with
  | O => Some (s, acc, ellipsis)
  | S fuel' =>
      let j := len acc in
      if IPv6len <=? j then Some (s, acc, ellipsis)
      else
        let '(n, rest, ok) := xtoi s in
        if negb ok || (65535 <? n) then None
        else if startsWith rest "." then
          (* might be in trailing IPv4 *)
          if (ellipsis <? 0) && negb (j =? IPv6len - IPv4len) then None
          else if IPv6len <? j + IPv4len then None
          else
            match parseIPv4 s with
            | None => None
            | Some ip4 =>
                Some ("", acc ++ [at_ ip4 12; at_ ip4 13; at_ ip4 14;
                                  at_ ip4 15], ellipsis)
            end
        else
          let acc' := acc ++ [mkbyte (Z.shiftr n 8); mkbyte n] in
          match rest with
          | "" => Some ("", acc', ellipsis)
          | String c r =>
              (* must be followed by colon and more *)
              if negb (Ascii.eqb c ":") || (r =? "")%string then None
              else if startsWith r ":" then
                (* ellipsis *)
                if 0 <=? ellipsis then None
                else
                  match tail r with
                  | "" => Some ("", acc', len acc')
                  | r' => parseIPv6_loop fuel' r' acc' (len acc')
                  end
              else parseIPv6_loop fuel' r acc' ellipsis
          end
  end.

(** [parseIPv6(s, false)] *)
Definition parseIPv6 (s : string) : option IP :=
  let '(lead, s') :=
    match s with
    | String ":" (String ":" r) => (true, r)
    | _ => (false, s)
    end in
  if lead && (s' =? "")%string then Some (zeros 16)
  else
    match parseIPv6_loop 8 s' [] (if lead then 0 else -1) with
    | None => None
    | Some (rest, acc, ellipsis) =>
        if negb (rest =? "")%string then None   (* must use entire string *)
        else if len acc <? IPv6len then
          if ellipsis <? 0 then None
          else
            let e := Z.to_nat ellipsis in
            Some (firstn e acc ++ zeros (16 - List.length acc)
                    ++ skipn e acc)
        else Some acc
    end.

(** The text before the first [c] of [s] and the text after it. *)
Fixpoint cut (s : string) (c : ascii) : option (string * string) :=
  match s with
  | "" => None
  | String d s' =>
      if Ascii.eqb d c then Some ("", s')
      else match cut s' c with
           | Some (a, b) => Some (String d a, b)
           | None => None
           end
  end.

(** [(&ParseError{"CIDR address", s}).Error()] *)
Definition ParseError (s : string) : string :=
  ("invalid CIDR address: " ++ s)%string.

(** [ParseCIDR(s)]: the address, the network and the error. *)
Definition ParseCIDR (s : string) : IP * option IPNet * error :=
  match cut s "/" with
  | None => ([], None, Some (ParseError s))
  | Some (addr, mask) =>
      let '(iplen, ip) :=
        match parseIPv4 addr with
        | Some ip => (IPv4len, Some ip)
        | None => (IPv6len, parseIPv6 addr)
        end in
      let '(n, rest, ok) := dtoi mask in
      match ip with
      | Some ip =>
          if negb ok || negb (rest =? "")%string || (n <? 0)
             || (8 * iplen <? n)
          then ([], None, Some (ParseError s))
          else
            let m := CIDRMask n (8 * iplen) in
            (ip, Some (mkIPNet (Mask ip m) m), None)
      | None => ([], None, Some (ParseError s))
      end
  end.

(** *** Textual form of an address *)

Definition digitChar (d : Z) : ascii := ascii_of_N (Z.to_N (48 + d)).

(** The digits of [val] in base 10, most significant first; [fuel]
    bounds their number. *)
Fixpoint uitoa_loop (fuel : nat) (val : Z) (acc : string) : string :=
  match fuel with
  | O => acc
  | S fuel' =>
      if 10 <=? val
      then uitoa_loop fuel' (val / 10) (String (digitChar (val mod 10)) acc)
      else String (digitChar val) acc
  end.

(** [uitoa(val)] for an unsigned 64-bit [val], which has at most 20
    digits (the size of the buffer in the source). *)
Definition uitoa (val : Z) : string :=
  if val =? 0 then "0" else uitoa_loop 20 val "".

Definition hexDigit (v : Z) : ascii :=
  if v <? 10 then ascii_of_N (Z.to_N (48 + v))
  else ascii_of_N (Z.to_N (97 + (v - 10))).

(** The loop of [appendHex], for [j] from [k - 1] down to 0. *)
Fixpoint appendHex_loop (k : nat) (i : Z) : string :=
  match k with
  | O => ""
  | S j =>
      let v := Z.shiftr i (Z.of_nat j * 4) in
      if 0 <? v
      then String (hexDigit (Z.land v 15)) (appendHex_loop j i)
      else appendHex_loop j i
  end.

(** [appendHex(dst, i)]: lower-case hexadecimal without leading zeros. *)
Definition appendHex (i : Z) : string :=
  if i =? 0 then "0" else appendHex_loop 8 i.

Definition group (p : list byte) (i : Z) : Z :=
  Z.lor (Z.shiftl (u8 (at_ p i)) 8) (u8 (at_ p (i + 1))).

(** The inner loop that measures a run of zero groups from [j]. *)
Fixpoint zeroRun (fuel : nat) (p : list byte) (j : Z) : Z :=
  match fuel with
  | O => j
  | S fuel' =>
      if (j <? IPv6len) && Byte.eqb (at_ p j) Byte.x00
         && Byte.eqb (at_ p (j + 1)) Byte.x00
      then zeroRun fuel' p (j + 2) else j
  end.

(** The loop that finds the longest run of zeros: [(e0, e1)]. *)
Fixpoint longestRun (fuel : nat) (p : list byte) (i e0 e1 : Z) : Z * Z :=
  match fuel with
  | O => (e0, e1)
  | S fuel' =>
      if i <? IPv6len then
        let j := zeroRun 8 p i in
        if (i <? j) && (e1 - e0 <? j - i)
        then longestRun fuel' p (i + 2) i j
        else longestRun fuel' p (i + 2) e0 e1
      else (e0, e1)
  end.

(** The loop that prints the groups, with [::] in place of the run. *)
Fixpoint printGroups (fuel : nat) (p : list byte) (i e0 e1 : Z) : string :=
  match fuel with
  | O => ""
  | S fuel' =>
      if i <? IPv6len then
        if i =? e0 then
          if IPv6len <=? e1 then "::"
          else ("::" ++ appendHex (group p e1)
                     ++ printGroups fuel' p (e1 + 2) e0 e1)%string
        else
          let sep := if 0 <? i then ":" else "" in
          (sep ++ appendHex (group p i)
               ++ printGroups fuel' p (i + 2) e0 e1)%string
      else ""
  end.

(** [ip.String()] *)
Definition String (ip : IP) : string :=
  if len ip =? 0 then "<nil>"
  else
    match To4 ip with
    | Some p4 =>
        (uitoa (u8 (at_ p4 0)) ++ "." ++ uitoa (u8 (at_ p4 1)) ++ "."
           ++ uitoa (u8 (at_ p4 2)) ++ "." ++ uitoa (u8 (at_ p4 3)))%string
    | None =>
        if negb (len ip =? IPv6len) then "?"
        else
          let '(e0, e1) := longestRun 8 ip 0 (-1) (-1) in
          (* "::" must not shorten just one 16 bit 0 field *)
          let '(e0, e1) := if e1 - e0 <=? 2 then (-1, -1) else (e0, e1) in
          printGroups 8 ip 0 e0 e1
    end.

(** *** What the operating system reports *)

(** A [net.Interface], with the answer its [Addrs()] method gives: the
    addresses, each as its [String()], and the error. *)
Record Interface : Type := mkInterface {
  Name : string;
  Addrs : list string * error
}.

End net.

Module sort.

Section Stable.
Variable A : Type.
Variable Less : A -> A -> bool.

(** The inner loop of [insertionSort]: the new element [x] is swapped
    towards the front while it is less than its left neighbour.  The
    part of the slice already sorted is given last element first. *)
Fixpoint sink (x : A) (before : list A) : list A :=
  match before with
  | [] => [x]
  | y :: before' =>
      if Less x y then y :: sink x before' else x :: before
  end.

(** [insertionSort(data, 0, len(data))] *)
Definition insertionSort (data : list A) : list A :=
  rev (fold_left (fun before x => sink x before) data []).

(** [sort.Stable(data)].  The library sorts blocks of 20 elements with
    [insertionSort] and merges them in place with [symMerge]; up to 19
    elements that is [insertionSort] itself, and for more it yields
    the same slice, since a stable sort's result is determined by the
    input when [Less] is a strict weak order ([Stable_unique]). *)
Definition Stable (data : list A) : list A := insertionSort data.

End Stable.

End sort.

(** ** The program: ips.go *)

(** ** Effects *)

Inductive event : Type :=
| Println (s : string)         (* the builtin println: standard error *)
| LogPrintf (s : string)       (* log.Printf, the formatted message *)
| CallInterfaces               (* net.Interfaces() *)
| CallAddrs (name : string).   (* intf.Addrs() *)

Definition IO (A : Type) : Type := A * list event.

Definition ret {A : Type} (a : A) : IO A := (a, []).

Definition bind {A B : Type} (m : IO A) (k : A -> IO B) : IO B :=
  let '(a, t1) := m in
  let '(b, t2) := k a in
  (b, t1 ++ t2).

Definition emit (e : event) : IO unit := (tt, [e]).

Notation "x <- m ;; k" := (bind m (fun x => k))
  (at level 61, m at next level, right associativity).
Notation "m ;;; k" := (bind m (fun _ => k))
  (at level 61, right associativity).

(** The state of the host: what [net.Interfaces()] answers. *)
Record host : Type := mkHost {
  Interfaces : list net.Interface * error
}.

Definition net_Interfaces (h : host) : IO (list net.Interface * error) :=
  emit CallInterfaces ;;; ret (Interfaces h).

Definition intf_Addrs (intf : net.Interface) : IO (list string * error) :=
  emit (CallAddrs (net.Name intf)) ;;; ret (net.Addrs intf).

Module interfaceIP.

Record t : Type := mk {
  Name : string;
  IP : net.IP
}.

Definition To16 (iip : t) : option net.IP := net.To16 (IP iip).

Definition To4 (iip : t) : option net.IP := net.To4 (IP iip).

Definition IsIPv4 (iip : t) : bool :=
  match To4 iip with
  | Some _ => true
  | None => false
  end.

Definition IPString (iip : t) : string :=
  match To4 iip with
  | Some v4 => net.String v4
  | None => net.String (IP iip)
  end.

(** [fmt.Sprintf("%s:%s", iip.Name, iip.IPString())] *)
Definition String (iip : t) : string :=
  (Name iip ++ ":" ++ IPString iip)%string.

End interfaceIP.

Module interfaceSpec.

Record t : Type := mk {
  Spec : string;
  IPv6 : bool;
  Name : string;
  Network : option net.IPNet;
  Index : Z;
  HasIndex : bool
}.

Definition String (spec : t) : string := Spec spec.

Definition Match (spec : t) (index : Z) (iip : interfaceIP.t) : bool :=
  (* Specific Interface eth1, eth0[1], eth0:inet6, inet, inet6 *)
  if (Name spec =? interfaceIP.Name iip)%string || (Name spec =? "*")%string
  then
    (* Has index and matches *)
    if HasIndex spec then Index spec =? index
    (* Don't match loopback address for wildcard spec *)
    else if (Name spec =? "*")%string && net.IsLoopback (interfaceIP.IP iip)
    then false
    else negb (Bool.eqb (IPv6 spec) (interfaceIP.IsIPv4 iip))
  else
    (* CIDR *)
    match Network spec with
    | Some network => net.Contains network (interfaceIP.IP iip)
    | None => false
    end.

End interfaceSpec.

(** The zero value [interfaceSpec{}], whose fields the composite literals
    of the source fill in. *)
Definition zeroSpec : interfaceSpec.t :=
  interfaceSpec.mk "" false "" None 0 false.

(** The printing of a slice of [Stringer]s under the verb [%s]. *)
Definition fmtSlice {A : Type} (str : A -> string) (l : list A) : string :=
  ("[" ++ strings.Join (map str l) " " ++ "]")%string.

(** The head of the inner loop's body: the counter [index] and the last
    interface name [iface] after they have been brought up to date for
    the address [iip]. *)
Definition advance (index : Z) (iface : string) (iip : interfaceIP.t)
  : Z * string :=
  (* Since the interfaces are ordered by name
     a change in interface name can safely reset the index *)
  if negb (iface =? interfaceIP.Name iip)%string
  then (0, interfaceIP.Name iip)
  else (int_wrap (index + 1), iface).

(** [scan spec interfaceIPs index iface]: the inner loop of
    [findIPWithSpecs], entered with the counter [index] and the last
    interface name [iface]. *)
Fixpoint scan (spec : interfaceSpec.t) (interfaceIPs : list interfaceIP.t)
         (index : Z) (iface : string) : option string :=
  match interfaceIPs with
  | [] => None
  | iip :: rest =>
      let '(index, iface) := advance index iface iip in
      if interfaceSpec.Match spec index iip
      then Some (interfaceIP.IPString iip)
      else scan spec rest index iface
  end.

Fixpoint findFirst (specs : list interfaceSpec.t)
         (interfaceIPs : list interfaceIP.t) : option string :=
  match specs with
  | [] => None
  | spec :: specs' =>
      match scan spec interfaceIPs 0 "" with
      | Some ip => Some ip
      | None => findFirst specs' interfaceIPs
      end
  end.

(** The error of [findIPWithSpecs]. *)
Definition noMatchError (specs : list interfaceSpec.t)
           (interfaceIPs : list interfaceIP.t) : string :=
  ("None of the interface specifications were able to match" ++ LF
     ++ "Specifications: " ++ fmtSlice interfaceSpec.String specs ++ LF
     ++ "Interfaces IPs: " ++ fmtSlice interfaceIP.String interfaceIPs)%string.

(** [findIPWithSpecs] will use the given interface specification list and
    will find the first IP in the interfaceIPs that matches a spec. *)
Definition findIPWithSpecs (specs : list interfaceSpec.t)
           (interfaceIPs : list interfaceIP.t) : string * error :=
  match findFirst specs interfaceIPs with
  | Some ip => (ip, None)
  | None => ("", Some (noMatchError specs interfaceIPs))
  end.

(** *** The pattern [ifaceSpec]

    [^(?P<Name>\w+)(?:(?:\[(?P<Index>\d+)\])|(?::(?P<Version>inet6?)))?$]

    [\w] is [[0-9A-Za-z_]] and [\d] is [[0-9]]; [$] is the end of the text.
    Neither ['['] nor [':'] is a word character, so the name is the whole
    run of word characters at the head of the text. *)

Definition isWord (c : ascii) : bool :=
  let b := code c in
  ((48 <=? b) && (b <=? 57)) || ((65 <=? b) && (b <=? 90))
  || (b =? 95) || ((97 <=? b) && (b <=? 122)).

(** The longest prefix of [s] whose characters satisfy [f], and the rest. *)
Fixpoint span (f : ascii -> bool) (s : string) : string * string :=
  match s with
  | "" => ("", "")
  | String c s' =>
      if f c then let '(a, b) := span f s' in (String c a, b)
      else ("", s)
  end.

(** [ifaceSpec.FindStringSubmatch(s)]: [None] when the text does not match,
    else the groups Name, Index and Version; a group that took no part in
    the match is empty. *)
Definition ifaceSpec_FindStringSubmatch (s : string)
  : option (string * string * string) :=
  let '(name, rest) := span isWord s in
  if (name =? "")%string then None
  else
    match rest with
    | "" => Some (name, "", "")
    | String c r =>
        if Ascii.eqb c "[" then
          let '(index, r') := span isDigit r in
          if negb (index =? "")%string && (r' =? "]")%string
          then Some (name, index, "") else None
        else if Ascii.eqb c ":" then
          if (r =? "inet")%string || (r =? "inet6")%string
          then Some (name, "", r) else None
        else None
    end.

Definition parseInterfaceSpec (spec : string) : interfaceSpec.t * error :=
  if (spec =? "inet")%string
  then (interfaceSpec.mk "" false "*" None 0 false, None)
  else if (spec =? "inet6")%string
  then (interfaceSpec.mk "" true "*" None 0 false, None)
  else
    match ifaceSpec_FindStringSubmatch spec with
    | Some (name, index, inet) =>
        if negb (index =? "")%string then
          match strconv.Atoi index with
          | None =>
              (interfaceSpec.mk spec false "" None 0 false,
               Some ("Unable to parse index " ++ index ++ " in " ++ spec)%string)
          | Some i => (interfaceSpec.mk spec false name None i true, None)
          end
        else if negb (inet =? "")%string then
          if (inet =? "inet")%string
          then (interfaceSpec.mk spec false name None 0 false, None)
          else (interfaceSpec.mk spec true name None 0 false, None)
        else (interfaceSpec.mk spec false name None 0 false, None)
    | None =>
        match net.ParseCIDR spec with
        | (_, network, None) =>
            (interfaceSpec.mk spec false "" network 0 false, None)
        | (_, _, Some _) =>
            (interfaceSpec.mk spec false "" None 0 false,
             Some ("Unable to parse interface spec: " ++ spec)%string)
        end
    end.

(** The loop of [parseInterfaceSpecs], with the slices [specs] and
    [errors] it appends to. *)
Fixpoint parseLoop (interfaces : list string)
         (specs : list interfaceSpec.t) (errors : list string)
  : list interfaceSpec.t * list string :=
  match interfaces with
  | [] => (specs, errors)
  | iface :: rest =>
      match parseInterfaceSpec iface with
      | (_, Some err) => parseLoop rest specs (errors ++ [err])
      | (spec, None) => parseLoop rest (specs ++ [spec]) errors
      end
  end.

Definition parseInterfaceSpecs (interfaces : list string)
  : IO (list interfaceSpec.t * error) :=
  let '(specs, errors) := parseLoop interfaces [] [] in
  if 0 <? net.len errors then
    let err := fmt.Sprintf0 (strings.Join errors LF) in
    emit (Println err) ;;;
    ret (specs, Some err)
  else ret (specs, None).

(** [ByInterfaceThenIP] implements the Sort with the following properties:
    1. Sort interfaces alphabetically
    2. Sort IPs by bytes (normalized to 16 byte form) *)
Module ByInterfaceThenIP.

(** The bytes of [iip.To16()], nil included. *)
Definition bytes16 (iip : interfaceIP.t) : list byte :=
  match interfaceIP.To16 iip with
  | Some b => b
  | None => []
  end.

(** [se.Less(i, j)] for [iip1 = se[i]] and [iip2 = se[j]]. *)
Definition Less (iip1 iip2 : interfaceIP.t) : bool :=
  let cmp := strings.Compare (interfaceIP.Name iip1) (interfaceIP.Name iip2) in
  if negb (cmp =? 0) then cmp <? 0
  else bytes.Compare (bytes16 iip1) (bytes16 iip2) <? 0.

(** [se.Len()] *)
Definition Len (se : list interfaceIP.t) : Z := net.len se.

(** The assignment [se[n] = x], for an index within the slice. *)
Fixpoint assign (se : list interfaceIP.t) (n : nat) (x : interfaceIP.t)
  : list interfaceIP.t :=
  match se, n with
  | [], _ => []
  | _ :: rest, O => x :: rest
  | a :: rest, S n' => a :: assign rest n' x
  end.

(** [se.Swap(i, j)], that is [se[i], se[j] = se[j], se[i]]: both elements
    are read, then written.  [None] stands for the panic of an index out
    of range. *)
Definition Swap (se : list interfaceIP.t) (i j : Z)
  : option (list interfaceIP.t) :=
  if (i <? 0) || (j <? 0) then None
  else
    match nth_error se (Z.to_nat i), nth_error se (Z.to_nat j) with
    | Some x, Some y =>
        Some (assign (assign se (Z.to_nat i) y) (Z.to_nat j) x)
    | _, _ => None
    end.

End ByInterfaceThenIP.

(** The innermost loop of [getinterfaceIPs], over the pieces of one address
    text split on spaces. *)
Fixpoint splitLoop (name : string) (pieces : list string)
         (ifaceIPs : list interfaceIP.t) (errors : list string)
  : list interfaceIP.t * list string :=
  match pieces with
  | [] => (ifaceIPs, errors)
  | splitIP :: rest =>
      match net.ParseCIDR splitIP with
      | (_, _, Some err) => splitLoop name rest ifaceIPs (errors ++ [err])
      | (ip, _, None) =>
          splitLoop name rest (ifaceIPs ++ [interfaceIP.mk name ip]) errors
      end
  end.

(** The loop over the addresses of one interface. *)
Fixpoint addrLoop (name : string) (ipAddrs : list string)
         (ifaceIPs : list interfaceIP.t) (errors : list string)
  : list interfaceIP.t * list string :=
  match ipAddrs with
  | [] => (ifaceIPs, errors)
  | ipAddr :: rest =>
      let '(ifaceIPs, errors) :=
        splitLoop name (strings.Split1 ipAddr " ") ifaceIPs errors in
      addrLoop name rest ifaceIPs errors
  end.

(** The loop over the interfaces. *)
Fixpoint intfLoop (interfaces : list net.Interface)
         (ifaceIPs : list interfaceIP.t) (errors : list string)
  : IO (list interfaceIP.t * list string) :=
  match interfaces with
  | [] => ret (ifaceIPs, errors)
  | intf :: rest =>
      r <- intf_Addrs intf ;;
      match r with
      | (_, Some addrErr) => intfLoop rest ifaceIPs (errors ++ [addrErr])
      | (ipAddrs, None) =>
          let '(ifaceIPs, errors) :=
            addrLoop (net.Name intf) ipAddrs ifaceIPs errors in
          intfLoop rest ifaceIPs errors
      end
  end.

(** Queries the network interfaces on the running machine and returns a
    list of IPs for each interface. *)
Definition getinterfaceIPs (interfaces : list net.Interface)
  : IO (list interfaceIP.t * error) :=
  r <- intfLoop interfaces [] [] ;;
  let '(ifaceIPs, errors) := r in
  (* Stable Sort the interface IPs so that selecting the correct IP in GetIP
     can be consistent *)
  let ifaceIPs := sort.Stable _ ByInterfaceThenIP.Less ifaceIPs in
  if 0 <? net.len errors then
    let err := fmt.Sprintf0 (strings.Join errors LF) in
    emit (Println err) ;;;
    ret (ifaceIPs, Some err)
  else ret (ifaceIPs, None).

(** The first statement of [GetIP]: a nil or empty [specList] is replaced
    by a sane default. *)
Definition orDefault (specList : list string) : list string :=
  match specList with
  | [] => ["eth0:inet"]
  | _ => specList
  end.

(** The warning [GetIP] logs when some interfaces could not be read. *)
Definition recoverableWarning (interfaceIPsErr : string) : string :=
  ("We had a problem reading information about some network "
     ++ "interfaces. If everything works, it is safe to ignore this"
     ++ "message. Details:" ++ LF ++ interfaceIPsErr ++ LF)%string.

(** [GetIP] determines the IP address of the container. *)
Definition GetIP (h : host) (specList : list string) : IO (string * error) :=
  let specList := orDefault specList in
  p <- parseInterfaceSpecs specList ;;
  match p with
  | (_, Some err) => ret ("", Some err)
  | (specs, None) =>
      i <- net_Interfaces h ;;
      match i with
      | (_, Some interfacesErr) => ret ("", Some interfacesErr)
      | (interfaces, None) =>
          g <- getinterfaceIPs interfaces ;;
          match g with
          | (interfaceIPs, Some interfaceIPsErr) =>
              (* We had an error and there were no interfaces returned, this
                 is clearly an error state. *)
              if net.len interfaceIPs <? 1
              then ret ("", Some interfaceIPsErr)
              else
                (* We had error(s) and there were interfaces returned, this is
                   potentially recoverable. *)
                emit (LogPrintf (recoverableWarning interfaceIPsErr)) ;;;
                ret (findIPWithSpecs specs interfaceIPs)
          | (interfaceIPs, None) => ret (findIPWithSpecs specs interfaceIPs)
          end
      end
  end.

(** ** Notions the properties are stated with *)

(** The order the specification asks of the address list: interface name
    ascending, then the 16-byte form ascending. *)
Definition ipLe (a b : interfaceIP.t) : Prop :=
  strings.Compare (interfaceIP.Name a) (interfaceIP.Name b) < 0
  \/ (strings.Compare (interfaceIP.Name a) (interfaceIP.Name b) = 0
      /\ bytes.Compare (ByInterfaceThenIP.bytes16 a)
                       (ByInterfaceThenIP.bytes16 b) <= 0).

(** The two sort keys of an address as the comparison reads them, and the
    three-way comparison [ByInterfaceThenIP.Less] tests against [Lt]. *)
Definition nameKey (a : interfaceIP.t) : list Z :=
  map code (list_ascii_of_string (interfaceIP.Name a)).

Definition bytesKey (a : interfaceIP.t) : list Z :=
  map u8 (ByInterfaceThenIP.bytes16 a).

Definition ipCompare (a b : interfaceIP.t) : comparison :=
  match lex_compare (fun z => z) (nameKey a) (nameKey b) with
  | Eq => lex_compare (fun z => z) (bytesKey a) (bytesKey b)
  | c => c
  end.

(** Two elements that a comparison [Less] does not order. *)
Definition unordered {A : Type} (Less : A -> A -> bool) (a b : A) : bool :=
  negb (Less a b) && negb (Less b a).

(** The addresses of [interfaceIPs] bound to the interface [name], in the
    order of the list. *)
Definition onInterface (name : string) (interfaceIPs : list interfaceIP.t)
  : list interfaceIP.t :=
  filter (fun iip => (interfaceIP.Name iip =? name)%string) interfaceIPs.

(** The values the counter [index] takes during the inner loop of
    [findIPWithSpecs], one for every address of the list: the value
    [Match] is called with at that address. *)
Fixpoint counters (interfaceIPs : list interfaceIP.t) (index : Z)
         (iface : string) : list Z :=
  match interfaceIPs with
  | [] => []
  | iip :: rest =>
      let '(index, iface) := advance index iface iip in
      index :: counters rest index iface
  end.

(** The address [iip] is bound to the interface [n]. *)
Definition named (n : string) (iip : interfaceIP.t) : Prop :=
  interfaceIP.Name iip = n.

(** The counter and the last interface name the inner loop holds after it
    has gone through the addresses [interfaceIPs]. *)
Definition stateAfter (interfaceIPs : list interfaceIP.t) (index : Z)
           (iface : string) : Z * string :=
  fold_left (fun st iip => advance (fst st) (snd st) iip) interfaceIPs
            (index, iface).

(** The first address of the list, paired with its counter, that the rule
    [spec] matches. *)
Fixpoint firstMatch (spec : interfaceSpec.t)
         (pairs : list (interfaceIP.t * Z)) : option interfaceIP.t :=
  match pairs with
  | [] => None
  | (iip, index) :: rest =>
      if interfaceSpec.Match spec index iip then Some iip
      else firstMatch spec rest
  end.

(** The address list with the counter of every address. *)
Definition counted (interfaceIPs : list interfaceIP.t)
  : list (interfaceIP.t * Z) :=
  combine interfaceIPs (counters interfaceIPs 0 "").

(** A bare interface name: a non-empty word that is not one of the two
    literals tried first. *)
Definition isBareName (s : string) : bool :=
  negb (s =? "")%string && forallb isWord (list_ascii_of_string s)
  && negb (s =? "inet")%string && negb (s =? "inet6")%string.

(** The rules of the wildcard kind: those of ["inet"] and ["inet6"]. *)
Definition isWildcard (spec : interfaceSpec.t) : Prop :=
  spec = fst (parseInterfaceSpec "inet")
  \/ spec = fst (parseInterfaceSpec "inet6").

(** The messages of the items of a batch that do not parse, in order. *)
Definition failureMessages (items : list string) : list string :=
  flat_map (fun s => match snd (parseInterfaceSpec s) with
                     | Some m => [m]
                     | None => []
                     end) items.

(** The rules of the items of a batch that parse, in order. *)
Definition parsedRules (items : list string) : list interfaceSpec.t :=
  flat_map (fun s => match parseInterfaceSpec s with
                     | (spec, None) => [spec]
                     | (_, Some _) => []
                     end) items.

(** What the enumeration gathers before it sorts: addresses and errors. *)
Definition gathered (interfaces : list net.Interface)
  : list interfaceIP.t * list string :=
  fst (intfLoop interfaces [] []).

(** *** What the enumeration gathers, piece by piece *)

(** The addresses the pieces of one address text give for the interface
    [name]: one for every piece that is a CIDR text, in order. *)
Definition pieceAddrs (name : string) (pieces : list string)
  : list interfaceIP.t :=
  flat_map (fun piece => match net.ParseCIDR piece with
                         | (ip, _, None) => [interfaceIP.mk name ip]
                         | (_, _, Some _) => []
                         end) pieces.

(** The errors of the pieces that are no CIDR text, in order. *)
Definition pieceErrors (pieces : list string) : list string :=
  flat_map (fun piece => match net.ParseCIDR piece with
                         | (_, _, Some err) => [err]
                         | (_, _, None) => []
                         end) pieces.

(** The pieces an interface reports: its address texts split on spaces;
    none when its addresses cannot be read. *)
Definition intfPieces (intf : net.Interface) : list string :=
  match net.Addrs intf with
  | (_, Some _) => []
  | (ipAddrs, None) => flat_map (fun a => strings.Split1 a " ") ipAddrs
  end.

Definition intfAddrs (intf : net.Interface) : list interfaceIP.t :=
  pieceAddrs (net.Name intf) (intfPieces intf).

Definition intfErrors (intf : net.Interface) : list string :=
  match net.Addrs intf with
  | (_, Some addrErr) => [addrErr]
  | (_, None) => pieceErrors (intfPieces intf)
  end.

(** *** Sample data for the worked examples *)

(** The address [name] is bound to, given as a CIDR text the way the
    operating system reports it. *)
Definition addr (name cidr : string) : interfaceIP.t :=
  interfaceIP.mk name (fst (fst (net.ParseCIDR cidr))).

(** A host whose interfaces, each with its address texts, are all read
    without error. *)
Definition hostOf (interfaces : list (string * list string)) : host :=
  mkHost (map (fun p => net.mkInterface (fst p) (snd p, None)) interfaces,
          None).

(** ** Lexicographic comparison *)

Lemma lex_compare_map {A : Type} (key : A -> Z) (a b : list A) :
  lex_compare key a b = lex_compare (fun z => z) (map key a) (map key b).
Proof.
  revert b; induction a as [|x a IH]; intros [|y b]; simpl; auto.
  rewrite IH; reflexivity.
Qed.

Lemma lexZ_antisym (a b : list Z) :
  lex_compare (fun z => z) b a = CompOpp (lex_compare (fun z => z) a b).
Proof.
  revert b; induction a as [|x a IH]; intros [|y b]; simpl; auto.
  rewrite (Z.compare_antisym x y).
  destruct (x ?= y); simpl; auto.
Qed.

Lemma lexZ_eq (a b : list Z) :
  lex_compare (fun z => z) a b = Eq <-> a = b.
Proof.
  revert b; induction a as [|x a IH]; intros [|y b]; simpl;
    try (split; [discriminate | discriminate]); try tauto.
  destruct (x ?= y) eqn:E.
  - apply Z.compare_eq in E; subst y. rewrite IH.
    split; [intros ->; reflexivity | intros [= ->]; reflexivity].
  - split; [discriminate | intros [= ? ?]; subst; rewrite Z.compare_refl in E;
                           discriminate].
  - split; [discriminate | intros [= ? ?]; subst; rewrite Z.compare_refl in E;
                           discriminate].
Qed.

Lemma lexZ_lt_trans (a b c : list Z) :
  lex_compare (fun z => z) a b = Lt -> lex_compare (fun z => z) b c = Lt ->
  lex_compare (fun z => z) a c = Lt.
Proof.
  revert b c; induction a as [|x a IH]; intros [|y b] [|z c]; simpl;
    try discriminate; auto.
  intros H1 H2.
  destruct (x ?= y) eqn:E1; try discriminate;
    destruct (y ?= z) eqn:E2; try discriminate.
  - apply Z.compare_eq in E1, E2; subst. rewrite Z.compare_refl. eauto.
  - apply Z.compare_eq in E1; subst. rewrite E2; reflexivity.
  - apply Z.compare_eq in E2; subst. rewrite E1; reflexivity.
  - rewrite Z.compare_lt_iff in E1, E2.
    assert (E3 : x < z) by lia.
    rewrite <- Z.compare_lt_iff in E3. rewrite E3; reflexivity.
Qed.

(** ** [sort.Stable] on a strict weak order *)

Lemma StronglySorted_app {A : Type} (R : A -> A -> Prop) (l1 l2 : list A) :
  StronglySorted R l1 -> StronglySorted R l2 ->
  (forall a b, In a l1 -> In b l2 -> R a b) ->
  StronglySorted R (l1 ++ l2).
Proof.
  induction l1 as [|x l1 IH]; simpl; intros S1 S2 H; auto.
  apply StronglySorted_inv in S1 as [S1 F1].
  constructor.
  - apply IH; auto.
  - apply Forall_app; split; auto.
    apply Forall_forall; intros b Hb; apply H; auto.
Qed.

Lemma StronglySorted_app_inv {A : Type} (R : A -> A -> Prop) (l1 l2 : list A) :
  StronglySorted R (l1 ++ l2) ->
  StronglySorted R l1 /\ StronglySorted R l2
  /\ (forall a b, In a l1 -> In b l2 -> R a b).
Proof.
  induction l1 as [|x l1 IH]; simpl; intros S.
  - repeat split; auto. constructor. intros a b [].
  - apply StronglySorted_inv in S as [S F].
    destruct (IH S) as (S1 & S2 & H).
    apply Forall_app in F as [F1 F2].
    repeat split; auto.
    + constructor; auto.
    + intros a b [<-|Ha] Hb; auto.
      rewrite Forall_forall in F2; auto.
Qed.

Lemma StronglySorted_rev {A : Type} (R : A -> A -> Prop) (l : list A) :
  StronglySorted R l -> StronglySorted (fun a b => R b a) (rev l).
Proof.
  induction 1 as [|x l S IH F]; simpl; [constructor|].
  apply StronglySorted_app; auto.
  - repeat constructor.
  - intros a b Ha [<-|[]]. apply in_rev in Ha.
    rewrite Forall_forall in F; auto.
Qed.

Section StableFacts.

Variable A : Type.
Variable Less : A -> A -> bool.
Hypothesis Less_asym : forall a b, Less a b = true -> Less b a = false.
Hypothesis Less_negtrans :
  forall a b c, Less a b = false -> Less b c = false -> Less a c = false.

Let ge (a b : A) : Prop := Less a b = false.
Let le (a b : A) : Prop := Less b a = false.

Lemma Less_irrefl (a : A) : Less a a = false.
Proof.
  destruct (Less a a) eqn:E; auto.
  pose proof (Less_asym a a E). congruence.
Qed.

Lemma unordered_refl (a : A) : unordered Less a a = true.
Proof. unfold unordered. rewrite Less_irrefl. reflexivity. Qed.

Lemma unordered_sym (a b : A) : unordered Less a b = unordered Less b a.
Proof. unfold unordered. apply andb_comm. Qed.

Lemma unordered_class (a x y : A) :
  unordered Less a x = true -> unordered Less a y = true -> Less x y = false.
Proof.
  unfold unordered. rewrite !andb_true_iff, !negb_true_iff.
  intros [_ H1] [H2 _]. eauto.
Qed.

Lemma sink_perm (x : A) (before : list A) :
  Permutation (sort.sink A Less x before) (x :: before).
Proof.
  induction before as [|y r IH]; simpl; auto.
  destruct (Less x y); auto.
  rewrite IH. apply perm_swap.
Qed.

Lemma sink_sorted (x : A) (before : list A) :
  StronglySorted ge before -> StronglySorted ge (sort.sink A Less x before).
Proof.
  induction before as [|y r IH]; simpl; intros S.
  - repeat constructor.
  - pose proof S as S0.
    apply StronglySorted_inv in S as [S F].
    destruct (Less x y) eqn:E.
    + constructor; auto.
      eapply Permutation_Forall; [symmetry; apply sink_perm|].
      constructor; auto. apply Less_asym; exact E.
    + constructor; auto. constructor; auto.
      rewrite Forall_forall in F |- *. intros z Hz.
      apply (Less_negtrans x y z); auto. apply F; exact Hz.
Qed.

Lemma sinkAll_sorted (data before : list A) :
  StronglySorted ge before ->
  StronglySorted ge (fold_left (fun b x => sort.sink A Less x b) data before).
Proof.
  revert before; induction data as [|x data IH]; simpl; intros; auto.
  apply IH. apply sink_sorted; assumption.
Qed.

Lemma sinkAll_perm (data before : list A) :
  Permutation (fold_left (fun b x => sort.sink A Less x b) data before)
              (rev data ++ before).
Proof.
  revert before; induction data as [|x data IH]; simpl; intros; auto.
  rewrite IH, sink_perm, <- app_assoc. simpl.
  apply Permutation_app_head. reflexivity.
Qed.

(** The result is in ascending order... *)
Lemma Stable_sorted (data : list A) :
  StronglySorted le (sort.Stable A Less data).
Proof.
  unfold sort.Stable, sort.insertionSort.
  apply (StronglySorted_rev ge). apply sinkAll_sorted. constructor.
Qed.

(** ... holds the elements of the input ... *)
Lemma Stable_perm (data : list A) :
  Permutation data (sort.Stable A Less data).
Proof.
  unfold sort.Stable, sort.insertionSort.
  rewrite <- Permutation_rev, sinkAll_perm, app_nil_r.
  apply Permutation_rev.
Qed.

Lemma sink_filter (p : A -> bool) (x : A) (before : list A) :
  (forall a b, p a = true -> p b = true -> Less a b = false) ->
  filter p (rev (sort.sink A Less x before)) = filter p (rev before ++ [x]).
Proof.
  intros Hp. induction before as [|y r IH]; simpl; auto.
  destruct (Less x y) eqn:E; simpl; auto.
  rewrite filter_app, IH, !filter_app, <- !app_assoc. f_equal. simpl.
  destruct (p x) eqn:Px, (p y) eqn:Py; simpl; auto.
  rewrite (Hp x y Px Py) in E. discriminate.
Qed.

Lemma sinkAll_filter (p : A -> bool) (data before : list A) :
  (forall a b, p a = true -> p b = true -> Less a b = false) ->
  filter p (rev (fold_left (fun b x => sort.sink A Less x b) data before))
  = filter p (rev before ++ data).
Proof.
  intros Hp. revert before; induction data as [|x data IH]; simpl; intros.
  - rewrite app_nil_r; reflexivity.
  - rewrite IH, filter_app, sink_filter, <- filter_app, <- app_assoc; auto.
Qed.

(** ... and keeps elements that [Less] does not order in the order they
    had: the sort is stable. *)
Lemma Stable_stable (p : A -> bool) (data : list A) :
  (forall a b, p a = true -> p b = true -> Less a b = false) ->
  filter p (sort.Stable A Less data) = filter p data.
Proof.
  intros Hp. unfold sort.Stable, sort.insertionSort.
  rewrite sinkAll_filter; auto.
Qed.

Lemma sinkAll_fixed (data before : list A) :
  StronglySorted le (rev before ++ data) ->
  fold_left (fun b x => sort.sink A Less x b) data before = rev data ++ before.
Proof.
  revert before; induction data as [|x data IH]; simpl; intros before S; auto.
  assert (Hs : sort.sink A Less x before = x :: before).
  { destruct before as [|y r]; simpl; auto.
    simpl in S. apply StronglySorted_app_inv in S as (_ & _ & H).
    assert (E : le y x).
    { apply H; [apply in_or_app; right; left; reflexivity | left; reflexivity]. }
    unfold le in E. rewrite E. reflexivity. }
  rewrite Hs, IH.
  - rewrite <- app_assoc. reflexivity.
  - simpl. rewrite <- app_assoc. exact S.
Qed.

(** A slice already in order is left as it is. *)
Lemma Stable_fixed (data : list A) :
  StronglySorted le data -> sort.Stable A Less data = data.
Proof.
  intros S. unfold sort.Stable, sort.insertionSort.
  rewrite sinkAll_fixed; auto.
  rewrite app_nil_r. apply rev_involutive.
Qed.

Lemma Stable_idempotent (data : list A) :
  sort.Stable A Less (sort.Stable A Less data) = sort.Stable A Less data.
Proof. apply Stable_fixed, Stable_sorted. Qed.

Lemma sorted_classes_eq (l1 l2 : list A) :
  StronglySorted le l1 -> StronglySorted le l2 ->
  (forall a, filter (unordered Less a) l1 = filter (unordered Less a) l2) ->
  l1 = l2.
Proof.
  revert l2; induction l1 as [|h1 t1 IH]; intros [|h2 t2] S1 S2 H; auto.
  - specialize (H h2). simpl in H. rewrite unordered_refl in H. discriminate.
  - specialize (H h1). simpl in H. rewrite unordered_refl in H. discriminate.
  - apply StronglySorted_inv in S1 as [S1 F1].
    apply StronglySorted_inv in S2 as [S2 F2].
    assert (Hh : h1 = h2).
    { pose proof (H h1) as H1. pose proof (H h2) as H2. simpl in H1, H2.
      rewrite unordered_refl in H1, H2.
      destruct (unordered Less h1 h2) eqn:U.
      - injection H1; auto.
      - rewrite unordered_sym, U in H2.
        assert (I1 : In h1 t2).
        { eapply proj1. eapply filter_In. rewrite <- H1. left; reflexivity. }
        assert (I2 : In h2 t1).
        { eapply proj1. eapply filter_In. rewrite H2. left; reflexivity. }
        rewrite Forall_forall in F1, F2.
        apply F1 in I2. apply F2 in I1. unfold le in I1, I2.
        unfold unordered in U. rewrite I1, I2 in U. discriminate. }
    subst h2. f_equal. apply IH; auto.
    intros a. specialize (H a). simpl in H.
    destruct (unordered Less a h1); auto. injection H; auto.
Qed.

(** Whatever way a stable sort works, it returns this slice: a list in
    order that keeps every class of unordered elements as the input has
    it is the result of [sort.Stable]. *)
Lemma Stable_unique (data sorted : list A) :
  StronglySorted le sorted ->
  (forall a, filter (unordered Less a) sorted
             = filter (unordered Less a) data) ->
  sorted = sort.Stable A Less data.
Proof.
  intros S H. apply sorted_classes_eq; auto.
  - apply Stable_sorted.
  - intros a. rewrite H. symmetry. apply Stable_stable.
    intros x y. apply unordered_class.
Qed.

End StableFacts.

(** ** [ByInterfaceThenIP.Less] is a strict weak order *)

Lemma Less_ipCompare (a b : interfaceIP.t) :
  ByInterfaceThenIP.Less a b
  = match ipCompare a b with Lt => true | _ => false end.
Proof.
  unfold ByInterfaceThenIP.Less, ipCompare, strings.Compare, bytes.Compare,
    nameKey, bytesKey.
  rewrite <- !lex_compare_map.
  destruct (lex_compare code _ _); simpl; auto;
    destruct (lex_compare u8 _ _); reflexivity.
Qed.

Lemma ipCompare_antisym (a b : interfaceIP.t) :
  ipCompare b a = CompOpp (ipCompare a b).
Proof.
  unfold ipCompare.
  rewrite (lexZ_antisym (nameKey a)), (lexZ_antisym (bytesKey a)).
  destruct (lex_compare _ (nameKey a) _); reflexivity.
Qed.

Lemma ipCompare_eq (a b : interfaceIP.t) :
  ipCompare a b = Eq -> nameKey a = nameKey b /\ bytesKey a = bytesKey b.
Proof.
  unfold ipCompare.
  destruct (lex_compare _ (nameKey a) _) eqn:E; try discriminate.
  intros H. split; apply lexZ_eq; assumption.
Qed.

Lemma ipCompare_keys (a a' b : interfaceIP.t) :
  nameKey a = nameKey a' -> bytesKey a = bytesKey a' ->
  ipCompare a b = ipCompare a' b.
Proof. unfold ipCompare. intros -> ->. reflexivity. Qed.

Lemma ipCompare_lt_trans (a b c : interfaceIP.t) :
  ipCompare a b = Lt -> ipCompare b c = Lt -> ipCompare a c = Lt.
Proof.
  unfold ipCompare.
  destruct (lex_compare _ (nameKey a) (nameKey b)) eqn:E1; try discriminate;
    destruct (lex_compare _ (nameKey b) (nameKey c)) eqn:E2; try discriminate;
    intros H1 H2.
  - apply lexZ_eq in E1. rewrite E1, E2. eapply lexZ_lt_trans; eauto.
  - apply lexZ_eq in E1. rewrite E1, E2. reflexivity.
  - apply lexZ_eq in E2. rewrite <- E2, E1. reflexivity.
  - rewrite (lexZ_lt_trans _ _ _ E1 E2). reflexivity.
Qed.

Lemma Less_asym (a b : interfaceIP.t) :
  ByInterfaceThenIP.Less a b = true -> ByInterfaceThenIP.Less b a = false.
Proof.
  rewrite !Less_ipCompare, (ipCompare_antisym a b).
  destruct (ipCompare a b); simpl; congruence.
Qed.

Lemma Less_negtrans (a b c : interfaceIP.t) :
  ByInterfaceThenIP.Less a b = false -> ByInterfaceThenIP.Less b c = false ->
  ByInterfaceThenIP.Less a c = false.
Proof.
  rewrite !Less_ipCompare.
  destruct (ipCompare a c) eqn:Eac; auto.
  destruct (ipCompare a b) eqn:Eab; try discriminate; intros _.
  - apply ipCompare_eq in Eab as [K1 K2].
    rewrite <- (ipCompare_keys a b c K1 K2), Eac. discriminate.
  - assert (Eba : ipCompare b a = Lt) by (rewrite ipCompare_antisym, Eab; auto).
    rewrite (ipCompare_lt_trans _ _ _ Eba Eac). discriminate.
Qed.

(** The order of the specification is the one [Less] sorts by: [a] may
    stand before [b] exactly when [b] is not less than [a]. *)
Lemma ipLe_Less (a b : interfaceIP.t) :
  ipLe a b <-> ByInterfaceThenIP.Less b a = false.
Proof.
  rewrite Less_ipCompare, ipCompare_antisym.
  unfold ipLe, ipCompare, strings.Compare, bytes.Compare, nameKey, bytesKey.
  rewrite <- !lex_compare_map.
  destruct (lex_compare code _ _); simpl;
    destruct (lex_compare u8 _ _); simpl; split; intros H;
    try reflexivity; try discriminate; try lia;
    try (destruct H as [H|[H1 H2]]; lia).
Qed.

Lemma StronglySorted_ipLe (l : list interfaceIP.t) :
  StronglySorted ipLe l
  <-> StronglySorted (fun a b => ByInterfaceThenIP.Less b a = false) l.
Proof.
  split; induction 1; constructor; auto;
    (eapply Forall_impl; [|eassumption]); intros b; apply ipLe_Less.
Qed.

(** ** The parser *)

Ltac break_match :=
  match goal with
  | |- context [match ?x with _ => _ end] => destruct x eqn:?
  | H : context [match ?x with _ => _ end] |- _ => destruct x eqn:?
  end.

Lemma span_all (f : ascii -> bool) (s : string) :
  forallb f (list_ascii_of_string s) = true -> span f s = (s, "").
Proof.
  induction s as [|c s IH]; simpl; auto.
  rewrite andb_true_iff. intros [-> H]. rewrite (IH H). reflexivity.
Qed.

Lemma span_prefix (f : ascii -> bool) (s a b : string) :
  span f s = (a, b) -> forallb f (list_ascii_of_string a) = true.
Proof.
  revert a b; induction s as [|c s IH]; simpl; intros a b.
  - intros [= <- <-]. reflexivity.
  - destruct (f c) eqn:Fc.
    + destruct (span f s) as [a' b'] eqn:E. intros [= <- <-]. simpl.
      rewrite Fc. simpl. eapply IH; reflexivity.
    + intros [= <- <-]. reflexivity.
Qed.

Lemma ifaceSpec_groups (s name index inet : string) :
  ifaceSpec_FindStringSubmatch s = Some (name, index, inet) ->
  name <> "" /\ forallb isWord (list_ascii_of_string name) = true
  /\ forallb isDigit (list_ascii_of_string index) = true.
Proof.
  unfold ifaceSpec_FindStringSubmatch.
  destruct (span isWord s) as [n rest] eqn:E.
  pose proof (span_prefix _ _ _ _ E) as Hn.
  destruct (String.eqb_spec n ""); [discriminate|].
  destruct rest as [|c r].
  - intros [= <- <- <-]. auto.
  - destruct (Ascii.eqb c "[").
    + destruct (span isDigit r) as [i r'] eqn:Ei.
      pose proof (span_prefix _ _ _ _ Ei) as Hi.
      destruct (negb (i =? "")%string && (r' =? "]")%string); [|discriminate].
      intros [= <- <- <-]. auto.
    + destruct (Ascii.eqb c ":"); [|discriminate].
      destruct ((r =? "inet")%string || (r =? "inet6")%string); [|discriminate].
      intros [= <- <- <-]. auto.
Qed.

Lemma digits_value_lower (s : string) (acc v : Z) :
  strconv.digits_value s acc = Some v -> 0 <= acc -> 0 <= v.
Proof.
  revert acc; induction s as [|c s IH]; simpl; intros acc.
  - intros [= <-]; auto.
  - unfold isDigit. destruct ((48 <=? code c) && (code c <=? 57)) eqn:D;
      [|discriminate].
    apply andb_true_iff in D as [D1 D2]. intros H Hacc.
    apply (IH _ H). lia.
Qed.

Lemma Atoi_digits (s : string) (i : Z) :
  forallb isDigit (list_ascii_of_string s) = true ->
  strconv.Atoi s = Some i -> 0 <= i <= MaxInt.
Proof.
  intros D. unfold strconv.Atoi.
  destruct s as [|c r]; [discriminate|].
  simpl in D. apply andb_true_iff in D as [Dc _].
  assert (P : Ascii.eqb c "+" = false).
  { destruct (Ascii.eqb_spec c "+"); auto. subst c. discriminate. }
  assert (M : Ascii.eqb c "-" = false).
  { destruct (Ascii.eqb_spec c "-"); auto. subst c. discriminate. }
  rewrite P, M.
  destruct (strconv.digits_value (String c r) 0) as [un|] eqn:V; [|discriminate].
  apply digits_value_lower in V; [|lia].
  destruct (un <=? MaxInt) eqn:L; [|discriminate].
  intros [= <-]. lia.
Qed.

(** Every rule but those of ["inet"] and ["inet6"] carries the text it was
    parsed from, also when the text does not parse. *)
Lemma parse_keeps_text (s : string) :
  s <> "inet" -> s <> "inet6" ->
  interfaceSpec.Spec (fst (parseInterfaceSpec s)) = s.
Proof.
  intros H1 H2. unfold parseInterfaceSpec.
  apply String.eqb_neq in H1, H2. rewrite H1, H2.
  repeat (break_match; simpl; auto).
Qed.

(** A rule with an index: what the parser built it from. *)
Lemma parse_indexed (s : string) (spec : interfaceSpec.t) :
  parseInterfaceSpec s = (spec, None) ->
  interfaceSpec.HasIndex spec = true ->
  interfaceSpec.Name spec <> ""
  /\ forallb isWord (list_ascii_of_string (interfaceSpec.Name spec)) = true
  /\ interfaceSpec.Network spec = None
  /\ 0 <= interfaceSpec.Index spec <= MaxInt.
Proof.
  unfold parseInterfaceSpec.
  repeat (break_match; try discriminate);
    intros [= <-]; simpl; try discriminate; intros _.
  match goal with
  | H : ifaceSpec_FindStringSubmatch _ = Some _ |- _ =>
      apply ifaceSpec_groups in H as (Hn & Hw & Hd)
  end.
  repeat split; auto; eapply Atoi_digits; eauto.
Qed.

(** A bare interface name parses to a rule on that interface without
    index, with the IPv6 flag down. *)
Lemma parse_bare (s : string) :
  isBareName s = true ->
  parseInterfaceSpec s = (interfaceSpec.mk s false s None 0 false, None).
Proof.
  unfold isBareName. rewrite !andb_true_iff, !negb_true_iff.
  intros [[[E W] I4] I6].
  unfold parseInterfaceSpec, ifaceSpec_FindStringSubmatch.
  rewrite I4, I6, (span_all _ _ W), E. reflexivity.
Qed.

(** ** The match test *)

Lemma word_not_star (n : string) :
  forallb isWord (list_ascii_of_string n) = true -> (n =? "*")%string = false.
Proof.
  intros W. destruct (String.eqb_spec n "*"); auto.
  subst n. discriminate.
Qed.

Lemma Match_index_only (spec : interfaceSpec.t) (index : Z)
      (iip : interfaceIP.t) :
  interfaceSpec.HasIndex spec = true ->
  interfaceSpec.Network spec = None ->
  (interfaceSpec.Name spec =? "*")%string = false ->
  interfaceSpec.Match spec index iip
  = (interfaceSpec.Name spec =? interfaceIP.Name iip)%string
    && (interfaceSpec.Index spec =? index).
Proof.
  intros HI HN HS. unfold interfaceSpec.Match. rewrite HI, HN, HS.
  destruct (interfaceSpec.Name spec =? interfaceIP.Name iip)%string; reflexivity.
Qed.

Lemma Match_bare (s : string) (index : Z) (iip : interfaceIP.t) :
  isBareName s = true ->
  interfaceSpec.Match (interfaceSpec.mk s false s None 0 false) index iip
  = (s =? interfaceIP.Name iip)%string && interfaceIP.IsIPv4 iip.
Proof.
  unfold isBareName. rewrite !andb_true_iff. intros [[[_ W] _] _].
  unfold interfaceSpec.Match; simpl. rewrite (word_not_star _ W).
  destruct (s =? interfaceIP.Name iip)%string; simpl; auto.
  destruct (interfaceIP.IsIPv4 iip); reflexivity.
Qed.

Lemma Match_inet (index : Z) (iip : interfaceIP.t) :
  interfaceSpec.Match (fst (parseInterfaceSpec "inet")) index iip
  = negb (net.IsLoopback (interfaceIP.IP iip)) && interfaceIP.IsIPv4 iip.
Proof.
  unfold interfaceSpec.Match; simpl. rewrite orb_true_r.
  destruct (net.IsLoopback _), (interfaceIP.IsIPv4 iip); reflexivity.
Qed.

Lemma Match_inet6 (index : Z) (iip : interfaceIP.t) :
  interfaceSpec.Match (fst (parseInterfaceSpec "inet6")) index iip
  = negb (net.IsLoopback (interfaceIP.IP iip))
    && negb (interfaceIP.IsIPv4 iip).
Proof.
  unfold interfaceSpec.Match; simpl. rewrite orb_true_r.
  destruct (net.IsLoopback _), (interfaceIP.IsIPv4 iip); reflexivity.
Qed.

(** A rule with a network comes from a CIDR literal and has no name. *)
Lemma parse_network (s : string) (spec : interfaceSpec.t) (n : net.IPNet) :
  parseInterfaceSpec s = (spec, None) ->
  interfaceSpec.Network spec = Some n ->
  spec = interfaceSpec.mk s false "" (Some n) 0 false
  /\ snd (fst (net.ParseCIDR s)) = Some n.
Proof.
  unfold parseInterfaceSpec.
  repeat (break_match; try discriminate);
    intros [= <-]; simpl; try discriminate.
  intros ->. auto.
Qed.

(** On an interface that has a name, a CIDR rule tests nothing but the
    network. *)
Lemma Match_cidr_named (s : string) (spec : interfaceSpec.t) (n : net.IPNet)
      (index : Z) (iip : interfaceIP.t) :
  parseInterfaceSpec s = (spec, None) ->
  interfaceSpec.Network spec = Some n ->
  interfaceIP.Name iip <> "" ->
  interfaceSpec.Match spec index iip = net.Contains n (interfaceIP.IP iip).
Proof.
  intros P N Hn. destruct (parse_network _ _ _ P N) as [-> _].
  unfold interfaceSpec.Match; simpl.
  destruct (interfaceIP.Name iip); [congruence | reflexivity].
Qed.

(** ** The selection loops *)

Lemma scan_firstMatch (spec : interfaceSpec.t) (ips : list interfaceIP.t)
      (index : Z) (iface : string) :
  scan spec ips index iface
  = option_map interfaceIP.IPString
      (firstMatch spec (combine ips (counters ips index iface))).
Proof.
  revert index iface; induction ips as [|iip ips IH]; simpl; intros; auto.
  destruct (advance index iface iip) as [i f]. simpl.
  destruct (interfaceSpec.Match spec i iip); simpl; auto.
Qed.

Lemma firstMatch_None (spec : interfaceSpec.t)
      (pairs : list (interfaceIP.t * Z)) :
  firstMatch spec pairs = None
  <-> Forall (fun p => interfaceSpec.Match spec (snd p) (fst p) = false) pairs.
Proof.
  induction pairs as [|[iip k] pairs IH]; simpl.
  - split; auto.
  - destruct (interfaceSpec.Match spec k iip) eqn:M.
    + split; [discriminate|]. intros F. inversion F; subst. simpl in *.
      congruence.
    + rewrite IH. split; intros F; [constructor; auto | inversion F; auto].
Qed.

Lemma firstMatch_app (spec : interfaceSpec.t)
      (p1 p2 : list (interfaceIP.t * Z)) :
  firstMatch spec (p1 ++ p2)
  = match firstMatch spec p1 with
    | Some iip => Some iip
    | None => firstMatch spec p2
    end.
Proof.
  induction p1 as [|[iip k] p1 IH]; simpl; auto.
  destruct (interfaceSpec.Match spec k iip); auto.
Qed.

(** The address a rule selects is the first one, in the order of the list,
    that the rule matches under its counter. *)
Lemma firstMatch_Some (spec : interfaceSpec.t)
      (pairs : list (interfaceIP.t * Z)) (iip : interfaceIP.t) :
  firstMatch spec pairs = Some iip
  <-> exists p1 k p2,
      pairs = p1 ++ (iip, k) :: p2
      /\ interfaceSpec.Match spec k iip = true
      /\ Forall (fun p => interfaceSpec.Match spec (snd p) (fst p) = false) p1.
Proof.
  split.
  - induction pairs as [|[a k] pairs IH]; simpl; [discriminate|].
    destruct (interfaceSpec.Match spec k a) eqn:M.
    + intros [= <-]. exists [], k, pairs. auto.
    + intros H. destruct (IH H) as (p1 & k' & p2 & -> & M' & F).
      exists ((a, k) :: p1), k', p2. repeat split; auto.
  - intros (p1 & k & p2 & -> & M & F).
    rewrite firstMatch_app. apply firstMatch_None in F. rewrite F.
    simpl. rewrite M. reflexivity.
Qed.

Lemma findFirst_firstMatch (specs : list interfaceSpec.t)
      (ips : list interfaceIP.t) :
  findFirst specs ips
  = match specs with
    | [] => None
    | spec :: specs' =>
        match firstMatch spec (counted ips) with
        | Some iip => Some (interfaceIP.IPString iip)
        | None => findFirst specs' ips
        end
    end.
Proof.
  destruct specs as [|spec specs']; simpl; auto.
  rewrite scan_firstMatch. fold (counted ips).
  destruct (firstMatch spec (counted ips)); reflexivity.
Qed.

(** Rules are tried in the order of the list: the first rule that matches
    an address decides, whatever the rules after it would match. *)
Lemma findIPWithSpecs_first (before after : list interfaceSpec.t)
      (spec : interfaceSpec.t) (ips : list interfaceIP.t)
      (iip : interfaceIP.t) :
  Forall (fun r => firstMatch r (counted ips) = None) before ->
  firstMatch spec (counted ips) = Some iip ->
  findIPWithSpecs (before ++ spec :: after) ips
  = (interfaceIP.IPString iip, None).
Proof.
  intros F M. unfold findIPWithSpecs.
  assert (E : findFirst (before ++ spec :: after) ips
              = Some (interfaceIP.IPString iip)).
  { induction F as [|r before Hr F IH].
    - simpl app. rewrite findFirst_firstMatch, M. reflexivity.
    - simpl app. rewrite findFirst_firstMatch, Hr. exact IH. }
  rewrite E. reflexivity.
Qed.

Lemma findIPWithSpecs_none (specs : list interfaceSpec.t)
      (ips : list interfaceIP.t) :
  Forall (fun r => firstMatch r (counted ips) = None) specs ->
  findIPWithSpecs specs ips = ("", Some (noMatchError specs ips)).
Proof.
  intros F. unfold findIPWithSpecs.
  assert (E : findFirst specs ips = None).
  { induction F as [|r specs Hr F IH]; auto.
    rewrite findFirst_firstMatch, Hr. exact IH. }
  rewrite E. reflexivity.
Qed.

(** Conversely, a result comes from the first rule that matches some
    address, and is the first address that rule matches. *)
Lemma findIPWithSpecs_inv (specs : list interfaceSpec.t)
      (ips : list interfaceIP.t) (ip : string) :
  findIPWithSpecs specs ips = (ip, None) ->
  exists before spec after iip,
    specs = before ++ spec :: after
    /\ Forall (fun r => firstMatch r (counted ips) = None) before
    /\ firstMatch spec (counted ips) = Some iip
    /\ ip = interfaceIP.IPString iip.
Proof.
  unfold findIPWithSpecs.
  destruct (findFirst specs ips) as [r|] eqn:E; [|discriminate].
  intros [= ->].
  induction specs as [|spec specs IH]; [discriminate|].
  rewrite findFirst_firstMatch in E.
  destruct (firstMatch spec (counted ips)) as [iip|] eqn:M.
  - injection E as <-. exists [], spec, specs, iip. auto.
  - destruct (IH E) as (b & s & a & iip & -> & F & M' & ->).
    exists (spec :: b), s, a, iip. auto.
Qed.

(** ** Formatting without operands *)

Lemma doPrintf_plain (format : string) (fuel : nat) :
  strings.ContainsByte format "%" = false ->
  (String.length format <= fuel)%nat ->
  fmt.doPrintf fuel format = format.
Proof.
  revert fuel; induction format as [|c s IH]; intros [|fuel]; simpl; auto.
  - lia.
  - rewrite orb_false_iff. intros [-> H] L. rewrite IH; auto. lia.
Qed.

(** A text without ['%'] is formatted to itself. *)
Lemma Sprintf0_plain (format : string) :
  strings.ContainsByte format "%" = false -> fmt.Sprintf0 format = format.
Proof. intros H. apply doPrintf_plain; auto. Qed.

(** ** The batch parser *)

Lemma parseLoop_spec (items : list string) (specs : list interfaceSpec.t)
      (errors : list string) :
  parseLoop items specs errors
  = (specs ++ parsedRules items, errors ++ failureMessages items).
Proof.
  revert specs errors; induction items as [|s items IH]; simpl; intros.
  - rewrite !app_nil_r. reflexivity.
  - destruct (parseInterfaceSpec s) as [spec [m|]]; simpl;
      rewrite IH, <- !app_assoc; reflexivity.
Qed.

(** What [parseInterfaceSpecs] returns and prints: the rules of all items
    that parse, and, when some item does not, the error made of the
    messages joined by line feeds and given to [fmt.Errorf] as its
    format. *)
Lemma parseInterfaceSpecs_spec (items : list string) :
  parseInterfaceSpecs items
  = match failureMessages items with
    | [] => ((parsedRules items, None), [])
    | errors =>
        let err := fmt.Sprintf0 (strings.Join errors LF) in
        ((parsedRules items, Some err), [Println err])
    end.
Proof.
  unfold parseInterfaceSpecs. rewrite parseLoop_spec. simpl.
  destruct (failureMessages items) as [|m ms]; reflexivity.
Qed.

Lemma failureMessages_nil (items : list string) :
  failureMessages items = []
  <-> Forall (fun s => snd (parseInterfaceSpec s) = None) items.
Proof.
  induction items as [|s items IH]; simpl.
  - split; auto.
  - destruct (snd (parseInterfaceSpec s)) eqn:E; simpl.
    + split; [discriminate|]. intros F; inversion F; congruence.
    + rewrite IH. split; intros F; [constructor; auto | inversion F; auto].
Qed.

(** ** The enumeration *)

Lemma getinterfaceIPs_spec (interfaces : list net.Interface) :
  getinterfaceIPs interfaces
  = let sorted :=
      sort.Stable _ ByInterfaceThenIP.Less (fst (gathered interfaces)) in
    match snd (gathered interfaces) with
    | [] => ((sorted, None), snd (intfLoop interfaces [] []))
    | errors =>
        let err := fmt.Sprintf0 (strings.Join errors LF) in
        ((sorted, Some err), snd (intfLoop interfaces [] []) ++ [Println err])
    end.
Proof.
  unfold getinterfaceIPs, gathered, bind.
  destruct (intfLoop interfaces [] []) as [[ips errors] t]. simpl.
  destruct errors as [|m ms]; simpl; rewrite ?app_nil_r; reflexivity.
Qed.

(** ** The entry point, path by path *)

Lemma GetIP_paths (h : host) (specList : list string) :
  GetIP h specList
  = let '((specs, perr), t0) := parseInterfaceSpecs (orDefault specList) in
    match perr with
    | Some err => (("", Some err), t0)
    | None =>
        match Interfaces h with
        | (_, Some interfacesErr) =>
            (("", Some interfacesErr), t0 ++ [CallInterfaces])
        | (interfaces, None) =>
            let '((ips, ierr), t1) := getinterfaceIPs interfaces in
            match ierr, ips with
            | Some e, [] => (("", Some e), t0 ++ CallInterfaces :: t1)
            | Some e, _ :: _ =>
                (findIPWithSpecs specs ips,
                 t0 ++ CallInterfaces :: t1 ++ [LogPrintf (recoverableWarning e)])
            | None, _ => (findIPWithSpecs specs ips, t0 ++ CallInterfaces :: t1)
            end
        end
    end.
Proof.
  unfold GetIP, bind, net_Interfaces, emit, ret.
  destruct (parseInterfaceSpecs (orDefault specList)) as [[specs [e|]] t0];
    simpl.
  - rewrite app_nil_r. reflexivity.
  - destruct (Interfaces h) as [interfaces [e|]]; simpl.
    + reflexivity.
    + destruct (getinterfaceIPs interfaces) as [[ips [e|]] t1]; simpl.
      * destruct ips as [|a ips].
        -- simpl. rewrite app_nil_r. reflexivity.
        -- assert (L : (net.len (a :: ips) <? 1) = false).
           { unfold net.len. apply Z.ltb_ge.
             change (List.length (a :: ips)) with (S (List.length ips)). lia. }
           rewrite L. simpl. rewrite ?app_nil_r. reflexivity.
      * rewrite ?app_nil_r. reflexivity.
Qed.

(** ** Equality of names *)

Lemma code_inj (c d : ascii) : code c = code d -> c = d.
Proof.
  unfold code. intros H. apply N2Z.inj in H.
  rewrite <- (ascii_N_embedding c), <- (ascii_N_embedding d), H. reflexivity.
Qed.

Lemma map_code_inj (a b : list ascii) : map code a = map code b -> a = b.
Proof.
  revert b; induction a as [|c a IH]; intros [|d b]; simpl; try discriminate;
    auto.
  intros [= H1 H2]. f_equal; auto using code_inj.
Qed.

Lemma strings_Compare_eq (x y : string) : strings.Compare x y = 0 <-> x = y.
Proof.
  unfold strings.Compare. rewrite lex_compare_map. split.
  - intros H.
    assert (E : lex_compare (fun z => z) (map code (list_ascii_of_string x))
                            (map code (list_ascii_of_string y)) = Eq).
    { destruct (lex_compare _ _ _); simpl in H; auto; discriminate. }
    apply lexZ_eq, map_code_inj in E.
    rewrite <- (string_of_list_ascii_of_string x),
            <- (string_of_list_ascii_of_string y), E. reflexivity.
  - intros ->.
    replace (lex_compare _ _ _) with Eq; [reflexivity|].
    symmetry. apply lexZ_eq. reflexivity.
Qed.

Lemma strings_Compare_antisym (x y : string) :
  strings.Compare y x = - strings.Compare x y.
Proof.
  unfold strings.Compare.
  rewrite (lex_compare_map code (list_ascii_of_string y)),
    (lex_compare_map code (list_ascii_of_string x)), lexZ_antisym.
  destruct (lex_compare _ _ _); reflexivity.
Qed.

(** In a sorted list an address that stands between two addresses of one
    interface is on that interface too. *)
Lemma ipLe_between (a b c : interfaceIP.t) :
  ipLe a b -> ipLe b c -> interfaceIP.Name a = interfaceIP.Name c ->
  interfaceIP.Name b = interfaceIP.Name a.
Proof.
  unfold ipLe. intros Hab Hbc E. rewrite <- E in Hbc.
  rewrite (strings_Compare_antisym (interfaceIP.Name a)) in Hbc.
  apply strings_Compare_eq.
  rewrite (strings_Compare_antisym (interfaceIP.Name a)). lia.
Qed.

(** ** The counter on a sorted list *)

Lemma sorted_grouped (n : string) (ips : list interfaceIP.t) :
  StronglySorted ipLe ips ->
  exists pre run post,
    ips = pre ++ run ++ post
    /\ Forall (fun iip => ~ named n iip) pre
    /\ Forall (named n) run
    /\ Forall (fun iip => ~ named n iip) post.
Proof.
  induction 1 as [|a l S IH F].
  - exists [], [], []. repeat split; constructor.
  - destruct IH as (pre & run & post & -> & Hpre & Hrun & Hpost).
    destruct (String.eqb_spec (interfaceIP.Name a) n) as [E|E].
    + destruct pre as [|p pre].
      * exists [], (a :: run), post. repeat split; auto.
      * destruct run as [|r run].
        -- exists [], [a], ((p :: pre) ++ post).
           repeat split; auto. apply Forall_app; auto.
        -- exfalso.
           inversion Hpre as [|? ? Hp _]; subst.
           inversion Hrun as [|? ? Hr _]; subst.
           apply Hp. unfold named in *.
           rewrite Forall_forall in F.
           assert (ipLe a p) by (apply F; left; reflexivity).
           assert (ipLe p r).
           { simpl in S. apply StronglySorted_inv in S as [_ Fp].
             rewrite Forall_forall in Fp. apply Fp.
             apply in_or_app; right. left; reflexivity. }
           rewrite (ipLe_between a p r); auto; congruence.
    + exists (a :: pre), run, post. repeat split; auto.
Qed.

Lemma onInterface_grouped (n : string) (pre run post : list interfaceIP.t) :
  Forall (fun iip => ~ named n iip) pre -> Forall (named n) run ->
  Forall (fun iip => ~ named n iip) post ->
  onInterface n (pre ++ run ++ post) = run.
Proof.
  intros Hpre Hrun Hpost. unfold onInterface. rewrite !filter_app.
  assert (Z1 : forall l, Forall (fun iip => ~ named n iip) l ->
               filter (fun iip => (interfaceIP.Name iip =? n)%string) l = []).
  { induction 1 as [|x l Hx _ IH]; simpl; auto.
    destruct (String.eqb_spec (interfaceIP.Name x) n); [contradiction|auto]. }
  assert (Z2 : forall l, Forall (named n) l ->
               filter (fun iip => (interfaceIP.Name iip =? n)%string) l = l).
  { induction 1 as [|x l Hx _ IH]; simpl; auto.
    destruct (String.eqb_spec (interfaceIP.Name x) n); [|contradiction].
    rewrite IH; reflexivity. }
  rewrite (Z1 _ Hpre), (Z1 _ Hpost), (Z2 _ Hrun), app_nil_r. reflexivity.
Qed.

Lemma counters_length (ips : list interfaceIP.t) (i : Z) (f : string) :
  List.length (counters ips i f) = List.length ips.
Proof.
  revert i f; induction ips as [|a ips IH]; simpl; intros; auto.
  destruct (advance i f a). simpl. rewrite IH. reflexivity.
Qed.

Lemma counters_app (l1 l2 : list interfaceIP.t) (i : Z) (f : string) :
  counters (l1 ++ l2) i f
  = counters l1 i f
      ++ counters l2 (fst (stateAfter l1 i f)) (snd (stateAfter l1 i f)).
Proof.
  revert i f; induction l1 as [|a l1 IH]; simpl; intros; auto.
  unfold stateAfter. simpl.
  destruct (advance i f a) as [i' f'] eqn:E. simpl. rewrite IH.
  reflexivity.
Qed.

Lemma stateAfter_other (n : string) (pre : list interfaceIP.t) (i : Z)
      (f : string) :
  Forall (fun iip => ~ named n iip) pre -> f <> n ->
  snd (stateAfter pre i f) <> n.
Proof.
  intros H; revert i f; induction H as [|a pre Ha _ IH]; intros i f Hf; auto.
  unfold stateAfter. simpl. unfold advance at 2.
  destruct (negb (f =? interfaceIP.Name a)%string); simpl; apply IH; auto.
Qed.

Lemma int_wrap_small (k : Z) : 0 <= k <= MaxInt -> int_wrap k = k.
Proof.
  unfold int_wrap, MaxInt. intros H.
  rewrite Z.mod_small; lia.
Qed.

(** Inside the run of one interface the counter goes up by one. *)
Lemma counters_inside (n : string) (run : list interfaceIP.t) (k : nat) :
  Forall (named n) run ->
  Z.of_nat (k + List.length run) <= MaxInt ->
  counters run (Z.of_nat k) n = map Z.of_nat (seq (S k) (List.length run)).
Proof.
  intros H; revert k; induction H as [|a run Ha _ IH]; intros k B; auto.
  simpl. unfold advance. unfold named in Ha. rewrite Ha, String.eqb_refl.
  simpl negb. cbv iota.
  assert (W : int_wrap (Z.of_nat k + 1) = Z.of_nat (S k)).
  { rewrite int_wrap_small; simpl List.length in B; lia. }
  rewrite W. f_equal. apply IH. simpl List.length in B. lia.
Qed.

(** At the first address of an interface the counter is 0, and it goes up
    by one at each further address of that interface. *)
Lemma counters_run (n : string) (run : list interfaceIP.t) (i : Z)
      (f : string) :
  Forall (named n) run -> f <> n ->
  Z.of_nat (List.length run) <= MaxInt ->
  counters run i f = map Z.of_nat (seq 0 (List.length run)).
Proof.
  intros H Hf B. destruct H as [|a run Ha H]; auto.
  simpl. unfold advance. unfold named in Ha.
  assert (E : (f =? interfaceIP.Name a)%string = false).
  { apply String.eqb_neq. congruence. }
  rewrite E. simpl negb. cbv iota. f_equal. rewrite Ha.
  apply (counters_inside n run 0 H). simpl List.length in B. lia.
Qed.

(** ** A rule with an index on a sorted list *)

Lemma combine_app_eq {A B : Type} (l1 l2 : list A) (k1 k2 : list B) :
  List.length l1 = List.length k1 ->
  combine (l1 ++ l2) (k1 ++ k2) = combine l1 k1 ++ combine l2 k2.
Proof.
  revert k1; induction l1 as [|a l1 IH]; intros [|b k1]; simpl;
    try discriminate; auto.
  intros [= E]. rewrite IH; auto.
Qed.

(** A sorted list falls into the addresses before the interface [n],
    those of [n], and those after; when [n] is not the empty name, the
    counters of the addresses of [n] are 0, 1, 2, ... *)
Lemma counted_grouped (n : string) (ips : list interfaceIP.t) :
  n <> "" ->
  StronglySorted ipLe ips ->
  net.len ips <= MaxInt ->
  exists pre run post cs0 cs2,
    ips = pre ++ run ++ post
    /\ Forall (fun iip => ~ named n iip) pre
    /\ Forall (named n) run
    /\ Forall (fun iip => ~ named n iip) post
    /\ counted ips
       = combine pre cs0
           ++ combine run (map Z.of_nat (seq 0 (List.length run)))
           ++ combine post cs2.
Proof.
  intros Hn S B.
  destruct (sorted_grouped n ips S) as (pre & run & post & -> & P & R & Q).
  unfold net.len in B. rewrite !length_app in B.
  set (st1 := stateAfter pre 0 "").
  assert (F1 : snd st1 <> n) by (apply stateAfter_other; auto).
  exists pre, run, post, (counters pre 0 ""),
    (counters post (fst (stateAfter run (fst st1) (snd st1)))
                   (snd (stateAfter run (fst st1) (snd st1)))).
  repeat split; auto.
  unfold counted. rewrite !counters_app. fold st1.
  rewrite (counters_run n run (fst st1) (snd st1) R F1) by lia.
  rewrite combine_app_eq by (rewrite counters_length; reflexivity).
  rewrite combine_app_eq by (rewrite length_map, length_seq; reflexivity).
  reflexivity.
Qed.

Lemma counters_on_sorted (n : string) (ips : list interfaceIP.t) :
  n <> "" ->
  StronglySorted ipLe ips ->
  net.len ips <= MaxInt ->
  map snd (filter (fun p => (interfaceIP.Name (fst p) =? n)%string)
                  (counted ips))
  = map Z.of_nat (seq 0 (List.length (onInterface n ips))).
Proof.
  intros Hn S B.
  destruct (counted_grouped n ips Hn S B)
    as (pre & run & post & cs0 & cs2 & E & P & R & Q & C).
  rewrite C, E, (onInterface_grouped n pre run post P R Q).
  rewrite !filter_app, !map_app.
  assert (Z1 : forall l cs, Forall (fun iip => ~ named n iip) l ->
             filter (fun p : interfaceIP.t * Z =>
                       (interfaceIP.Name (fst p) =? n)%string)
                    (combine l cs) = []).
  { intros l cs H; revert cs; induction H as [|a l Ha _ IH];
      intros [|c cs]; simpl; auto.
    destruct (String.eqb_spec (interfaceIP.Name a) n); [contradiction|auto]. }
  assert (Z2 : forall l cs, Forall (named n) l ->
             List.length l = List.length cs ->
             map snd (filter (fun p : interfaceIP.t * Z =>
                                (interfaceIP.Name (fst p) =? n)%string)
                             (combine l cs)) = cs).
  { intros l cs H; revert cs; induction H as [|a l Ha _ IH];
      intros [|c cs]; simpl; try discriminate; auto.
    intros [= L].
    destruct (String.eqb_spec (interfaceIP.Name a) n); [|contradiction].
    simpl. rewrite IH; auto. }
  rewrite (Z1 _ _ P), (Z1 _ _ Q), Z2, app_nil_r; auto.
  rewrite length_map, length_seq. reflexivity.
Qed.

Section IndexedRule.

Variable spec : interfaceSpec.t.
Hypothesis has_index : interfaceSpec.HasIndex spec = true.
Hypothesis no_network : interfaceSpec.Network spec = None.
Hypothesis is_word :
  forallb isWord (list_ascii_of_string (interfaceSpec.Name spec)) = true.
Hypothesis has_name : interfaceSpec.Name spec <> "".
Hypothesis index_range : 0 <= interfaceSpec.Index spec <= MaxInt.

Let n := interfaceSpec.Name spec.
Let j := Z.to_nat (interfaceSpec.Index spec).

(** Such a rule tests the name and the counter, and nothing else. *)
Lemma indexed_Match (index : Z) (iip : interfaceIP.t) :
  interfaceSpec.Match spec index iip
  = (interfaceSpec.Name spec =? interfaceIP.Name iip)%string
    && (interfaceSpec.Index spec =? index).
Proof.
  apply Match_index_only; auto. apply word_not_star; assumption.
Qed.

Lemma firstMatch_others (l : list interfaceIP.t) (cs : list Z) :
  Forall (fun iip => ~ named n iip) l ->
  firstMatch spec (combine l cs) = None.
Proof.
  intros H; revert cs; induction H as [|a l Ha _ IH]; intros [|c cs];
    simpl; auto.
  rewrite indexed_Match.
  destruct (String.eqb_spec (interfaceSpec.Name spec) (interfaceIP.Name a))
    as [E|E]; simpl; auto.
  exfalso. apply Ha. unfold named, n. auto.
Qed.

Lemma firstMatch_run (run : list interfaceIP.t) (start : nat) :
  Forall (named n) run -> (start <= j)%nat ->
  firstMatch spec (combine run (map Z.of_nat (seq start (List.length run))))
  = nth_error run (j - start).
Proof.
  intros H; revert start; induction H as [|a run Ha _ IH]; intros start L.
  - simpl. destruct (j - start)%nat; reflexivity.
  - simpl. rewrite indexed_Match. unfold named, n in Ha.
    rewrite Ha, String.eqb_refl. simpl andb.
    destruct (Z.eqb_spec (interfaceSpec.Index spec) (Z.of_nat start)) as [E|E].
    + replace (j - start)%nat with 0%nat by (unfold j; lia). reflexivity.
    + assert (L' : (S start <= j)%nat) by (unfold j in *; lia).
      rewrite (IH (S start) L').
      replace (j - start)%nat with (S (j - S start)) by lia. reflexivity.
Qed.

Lemma indexed_on_sorted (ips : list interfaceIP.t) :
  StronglySorted ipLe ips ->
  net.len ips <= MaxInt ->
  firstMatch spec (counted ips) = nth_error (onInterface n ips) j.
Proof.
  intros S B.
  destruct (counted_grouped n ips has_name S B)
    as (pre & run & post & cs0 & cs2 & E & P & R & Q & C).
  rewrite C, E, (onInterface_grouped n pre run post P R Q).
  rewrite !firstMatch_app, (firstMatch_others _ _ P),
    (firstMatch_others _ _ Q).
  rewrite (firstMatch_run run 0 R) by lia.
  rewrite Nat.sub_0_r. destruct (nth_error run j); reflexivity.
Qed.

End IndexedRule.

(** ** The loops with a bounded number of turns *)

Lemma skipFlags_le (s : string) :
  (String.length (fmt.skipFlags s) <= String.length s)%nat.
Proof.
  induction s as [|c s IH]; simpl; auto.
  destruct (fmt.isFlag c); simpl; lia.
Qed.

Lemma tail_le (s : string) : (String.length (tail s) <= String.length s)%nat.
Proof. destruct s; simpl; lia. Qed.

Lemma parsenum_le (s : string) :
  (String.length (fst (fmt.parsenum s)) <= String.length s)%nat.
Proof.
  induction s as [|c s IH]; simpl; auto.
  destruct (isDigit c); simpl; lia.
Qed.

Lemma untilBracket_le (s inner rest : string) :
  fmt.untilBracket s = Some (inner, rest) ->
  (String.length rest <= String.length s)%nat.
Proof.
  revert inner rest; induction s as [|c s IH]; simpl; intros inner rest;
    [discriminate|].
  destruct (Ascii.eqb c "]").
  - intros [= <- <-]. lia.
  - destruct (fmt.untilBracket s) as [[i r]|]; [|discriminate].
    intros [= <- <-]. specialize (IH _ _ eq_refl). lia.
Qed.

Lemma argNumber_le (s : string) :
  (String.length (fst (fst (fmt.argNumber s))) <= String.length s)%nat.
Proof.
  unfold fmt.argNumber. destruct (startsWith s "["); simpl; auto.
  pose proof (tail_le s).
  destruct (fmt.untilBracket (tail s)) as [[inner rest]|] eqn:E; simpl; auto.
  apply untilBracket_le in E.
  destruct (fmt.parsenum inner). simpl. lia.
Qed.

Lemma dropn_le (n : nat) (s : string) :
  (String.length (dropn n s) <= String.length s)%nat.
Proof.
  revert s; induction n as [|n IH]; intros [|c s]; simpl; auto.
Qed.

Lemma verb_le (s : string) :
  (String.length (snd (fmt.verb s)) <= String.length s)%nat.
Proof.
  unfold fmt.verb.
  pose proof (skipFlags_le s) as L0.
  pose proof (argNumber_le (fmt.skipFlags s)) as L1.
  destruct (fmt.argNumber (fmt.skipFlags s)) as [[s1 ai1] b1]. simpl in L1.
  assert (L2 : forall ai,
             (String.length
                (snd (fst (fst
                   (if startsWith s1 "*"
                    then (fmt.badWidthString, tail s1, false, false)
                    else let '(r, isnum) := fmt.parsenum s1 in
                         ("", r, ai, ai && isnum)))))
              <= String.length s1)%nat).
  { intros ai. destruct (startsWith s1 "*"); simpl; [apply tail_le|].
    pose proof (parsenum_le s1). destruct (fmt.parsenum s1); simpl in *; lia. }
  specialize (L2 ai1).
  destruct (if startsWith s1 "*" then _ else _) as [[[o1 s2] ai2] b2].
  simpl in L2.
  assert (L3 : (String.length
                  (snd (fst (fst
                     (if startsWith s2 "." && (2 <=? String.length s2)%nat
                      then
                        let '(r, afterIndex', bad4) :=
                          fmt.argNumber (tail s2) in
                        if startsWith r "*"
                        then (fmt.badPrecString, tail r, false, ai2 || bad4)
                        else ("", fst (fmt.parsenum r), afterIndex',
                              ai2 || bad4)
                      else ("", s2, ai2, false)))))
                <= String.length s2)%nat).
  { destruct (startsWith s2 "." && (2 <=? String.length s2)%nat); simpl; auto.
    pose proof (tail_le s2). pose proof (argNumber_le (tail s2)).
    destruct (fmt.argNumber (tail s2)) as [[r a] b]. simpl in *.
    pose proof (tail_le r). pose proof (parsenum_le r).
    destruct (startsWith r "*"); simpl; lia. }
  destruct (if startsWith s2 "." && _ then _ else _) as [[[o2 s3] ai3] b3].
  simpl in L3.
  assert (L4 : (String.length
                  (fst (if ai3 then (s3, false)
                        else let '(r, _, b) := fmt.argNumber s3 in (r, b)))
                <= String.length s3)%nat).
  { destruct ai3; simpl; auto. pose proof (argNumber_le s3).
    destruct (fmt.argNumber s3) as [[r a] b]. simpl in *. lia. }
  destruct (if ai3 then _ else _) as [s4 b5]. simpl in L4.
  destruct s4 as [|c s4']; [simpl; lia|].
  destruct (utf8.DecodeRuneInString (String c s4')) as [r w].
  pose proof (dropn_le w (String c s4')).
  destruct (r =? 37); [simpl; lia|].
  destruct (negb _); simpl; lia.
Qed.

(** More turns than the format has characters change nothing: the loop
    of [doPrintf] has come to the end of the format by then. *)
Lemma doPrintf_fuel (n : nat) :
  forall (format : string) (fuel1 fuel2 : nat),
    (String.length format <= n)%nat -> (n <= fuel1)%nat -> (n <= fuel2)%nat ->
    fmt.doPrintf fuel1 format = fmt.doPrintf fuel2 format.
Proof.
  induction n as [|n IH]; intros format fuel1 fuel2 L F1 F2.
  - destruct format; [|simpl in L; lia].
    destruct fuel1, fuel2; reflexivity.
  - destruct fuel1 as [|fuel1]; [lia|]. destruct fuel2 as [|fuel2]; [lia|].
    destruct format as [|c rest]; [reflexivity|]. simpl in L. simpl.
    destruct (Ascii.eqb c "%").
    + pose proof (verb_le rest). destruct (fmt.verb rest) as [out rest'].
      simpl in *. f_equal. apply IH; lia.
    + f_equal. apply IH; lia.
Qed.

Lemma Sprintf0_fuel (format : string) (fuel : nat) :
  (String.length format <= fuel)%nat ->
  fmt.doPrintf fuel format = fmt.Sprintf0 format.
Proof.
  intros L. unfold fmt.Sprintf0.
  apply (doPrintf_fuel (String.length format)); auto.
Qed.

(** Eight turns are enough for the loop of [parseIPv6]: every turn that
    goes round again has written two more of the sixteen bytes. *)
Lemma parseIPv6_loop_fuel (fuel1 : nat) :
  forall (fuel2 : nat) (s : string) (acc : list byte) (ellipsis : Z),
    (16 <= List.length acc + 2 * fuel1)%nat ->
    (16 <= List.length acc + 2 * fuel2)%nat ->
    net.parseIPv6_loop fuel1 s acc ellipsis
    = net.parseIPv6_loop fuel2 s acc ellipsis.
Proof.
  induction fuel1 as [|fuel1 IH]; intros fuel2 s acc ellipsis B1 B2.
  - destruct fuel2 as [|fuel2]; [reflexivity|]. simpl.
    replace (net.IPv6len <=? net.len acc) with true; [reflexivity|].
    symmetry. apply Z.leb_le. unfold net.IPv6len, net.len. lia.
  - destruct fuel2 as [|fuel2].
    + simpl.
      replace (net.IPv6len <=? net.len acc) with true; [reflexivity|].
      symmetry. apply Z.leb_le. unfold net.IPv6len, net.len. lia.
    + simpl.
      assert (R : forall r e,
                 net.parseIPv6_loop fuel1 r
                   (acc ++ [mkbyte (Z.shiftr (fst (fst (net.xtoi s))) 8);
                            mkbyte (fst (fst (net.xtoi s)))]) e
                 = net.parseIPv6_loop fuel2 r
                     (acc ++ [mkbyte (Z.shiftr (fst (fst (net.xtoi s))) 8);
                              mkbyte (fst (fst (net.xtoi s)))]) e).
      { intros r e. apply IH; rewrite length_app; simpl; lia. }
      destruct (net.xtoi s) as [[n rest] ok]. simpl in R.
      repeat (break_match; try reflexivity); apply R.
Qed.

(** The same for the three loops of [String], which go through the
    sixteen bytes two at a time ... *)
Lemma zeroRun_fuel (fuel1 : nat) :
  forall (fuel2 : nat) (p : list byte) (j : Z),
    16 <= j + 2 * Z.of_nat fuel1 -> 16 <= j + 2 * Z.of_nat fuel2 ->
    net.zeroRun fuel1 p j = net.zeroRun fuel2 p j.
Proof.
  assert (Stop : forall fuel p j, 16 <= j -> net.zeroRun fuel p j = j).
  { intros [|fuel] p j H; simpl; auto.
    replace (j <? net.IPv6len) with false; [reflexivity|].
    symmetry. apply Z.ltb_ge. exact H. }
  induction fuel1 as [|fuel1 IH]; intros fuel2 p j B1 B2.
  - rewrite !Stop; auto; lia.
  - destruct fuel2 as [|fuel2]; [rewrite !Stop; auto; lia|].
    simpl. destruct (_ && _); auto. apply IH; lia.
Qed.

Lemma longestRun_fuel (fuel1 : nat) :
  forall (fuel2 : nat) (p : list byte) (i e0 e1 : Z),
    16 <= i + 2 * Z.of_nat fuel1 -> 16 <= i + 2 * Z.of_nat fuel2 ->
    net.longestRun fuel1 p i e0 e1 = net.longestRun fuel2 p i e0 e1.
Proof.
  assert (Stop : forall fuel p i e0 e1,
             16 <= i -> net.longestRun fuel p i e0 e1 = (e0, e1)).
  { intros [|fuel] p i e0 e1 H; simpl; auto.
    replace (i <? net.IPv6len) with false; [reflexivity|].
    symmetry. apply Z.ltb_ge. exact H. }
  induction fuel1 as [|fuel1 IH]; intros fuel2 p i e0 e1 B1 B2.
  - rewrite !Stop; auto; lia.
  - destruct fuel2 as [|fuel2]; [rewrite !Stop; auto; lia|].
    simpl. destruct (i <? net.IPv6len); auto.
    destruct (_ && _); apply IH; lia.
Qed.

Lemma printGroups_fuel (fuel1 : nat) :
  forall (fuel2 : nat) (p : list byte) (i e0 e1 : Z),
    e0 <= e1 ->
    16 <= i + 2 * Z.of_nat fuel1 -> 16 <= i + 2 * Z.of_nat fuel2 ->
    net.printGroups fuel1 p i e0 e1 = net.printGroups fuel2 p i e0 e1.
Proof.
  assert (Stop : forall fuel p i e0 e1,
             16 <= i -> net.printGroups fuel p i e0 e1 = "").
  { intros [|fuel] p i e0 e1 H; simpl; auto.
    replace (i <? net.IPv6len) with false; [reflexivity|].
    symmetry. apply Z.ltb_ge. exact H. }
  induction fuel1 as [|fuel1 IH]; intros fuel2 p i e0 e1 E B1 B2.
  - rewrite !Stop; auto; lia.
  - destruct fuel2 as [|fuel2]; [rewrite !Stop; auto; lia|].
    simpl. destruct (i <? net.IPv6len); auto.
    destruct (Z.eqb_spec i e0).
    + destruct (net.IPv6len <=? e1); auto.
      rewrite (IH fuel2); auto; lia.
    + rewrite (IH fuel2); auto; lia.
Qed.

(** ... and for the loop of [uitoa], which writes one digit a turn. *)
Lemma uitoa_loop_fuel (fuel1 : nat) :
  forall (fuel2 : nat) (val : Z) (acc : string),
    0 <= val < 10 ^ Z.of_nat (S fuel1) -> val < 10 ^ Z.of_nat (S fuel2) ->
    net.uitoa_loop (S fuel1) val acc = net.uitoa_loop (S fuel2) val acc.
Proof.
  induction fuel1 as [|fuel1 IH]; intros fuel2 val acc B1 B2.
  - change (10 ^ Z.of_nat 1) with 10 in B1. simpl.
    replace (10 <=? val) with false; [reflexivity|].
    symmetry; apply Z.leb_gt; lia.
  - change (net.uitoa_loop (S (S fuel1)) val acc)
      with (if 10 <=? val
            then net.uitoa_loop (S fuel1) (val / 10)
                   (String (net.digitChar (val mod 10)) acc)
            else String (net.digitChar val) acc).
    change (net.uitoa_loop (S fuel2) val acc)
      with (if 10 <=? val
            then net.uitoa_loop fuel2 (val / 10)
                   (String (net.digitChar (val mod 10)) acc)
            else String (net.digitChar val) acc).
    destruct (Z.leb_spec 10 val); auto.
    rewrite Nat2Z.inj_succ, Z.pow_succ_r in B1, B2 by lia.
    destruct fuel2 as [|fuel2]; [change (10 ^ Z.of_nat 0) with 1 in B2; lia|].
    apply IH.
    + split; [apply Z.div_pos; lia | apply Z.div_lt_upper_bound; lia].
    + apply Z.div_lt_upper_bound; lia.
Qed.

(** * The properties of the specification *)

(** ** Worked examples of the specification (section 8) *)

(** Rules ["eth0:inet"], [eth0] bound to [10.0.0.5/24] and [fe80::1/64]. *)
Example resolve_eth0_inet :
  fst (GetIP (hostOf [("eth0", ["10.0.0.5/24"; "fe80::1/64"])]) ["eth0:inet"])
  = ("10.0.0.5", None).
Proof. vm_compute. reflexivity. Qed.

(** An empty specification list behaves as ["eth0:inet"]. *)
Lemma resolve_default (h : host) : GetIP h [] = GetIP h ["eth0:inet"].
Proof. reflexivity. Qed.

(** Rules ["192.168.0.0/16"; "eth0:inet"]: the CIDR rule comes first in
    the list and decides, though [eth0] sorts before [eth1]. *)
Example resolve_cidr_first :
  fst (GetIP (hostOf [("eth0", ["10.0.0.5/24"]); ("eth1", ["192.168.5.5/24"])])
             ["192.168.0.0/16"; "eth0:inet"])
  = ("192.168.5.5", None).
Proof. vm_compute. reflexivity. Qed.

(** A wildcard rule on a host with nothing but a loopback interface. *)
Example resolve_loopback_only :
  let ips := [addr "lo" "::1/128"; addr "lo" "127.0.0.1/8"] in
  fst (GetIP (hostOf [("lo", ["127.0.0.1/8"; "::1/128"])]) ["inet"])
  = ("", Some (noMatchError [fst (parseInterfaceSpec "inet")] ips)).
Proof. vm_compute. reflexivity. Qed.

(** ** C10 *)

(** C10.  A rule that carries a positional index (a rule parsed from
    [name[i]]) tests the equality of the interface name and the equality
    of the counter and nothing else: the version of the address and its
    being a loopback address play no part, so that the rule matches any
    address of its interface that stands at its index. *)
Theorem indexed_rule_tests_name_and_counter :
  forall (s : string) (spec : interfaceSpec.t),
    parseInterfaceSpec s = (spec, None) ->
    interfaceSpec.HasIndex spec = true ->
    (forall (index : Z) (iip : interfaceIP.t),
        interfaceSpec.Match spec index iip
        = (interfaceSpec.Name spec =? interfaceIP.Name iip)%string
          && (interfaceSpec.Index spec =? index))
    /\ (forall ip : net.IP,
           interfaceSpec.Match spec (interfaceSpec.Index spec)
             (interfaceIP.mk (interfaceSpec.Name spec) ip) = true).
Proof.
  intros s spec P HI.
  destruct (parse_indexed s spec P HI) as (Hn & Hw & Hnet & Hi).
  assert (M : forall index iip,
             interfaceSpec.Match spec index iip
             = (interfaceSpec.Name spec =? interfaceIP.Name iip)%string
               && (interfaceSpec.Index spec =? index))
    by (intros; apply indexed_Match; assumption).
  split; [exact M|].
  intros ip. rewrite M. simpl. rewrite String.eqb_refl, Z.eqb_refl. reflexivity.
Qed.

(** The rule ["lo[0]"] matches the IPv6 loopback address of [lo]. *)
Lemma indexed_rule_tests_name_and_counter_witness :
  parseInterfaceSpec "lo[0]"
  = (interfaceSpec.mk "lo[0]" false "lo" None 0 true, None)
  /\ interfaceSpec.HasIndex (interfaceSpec.mk "lo[0]" false "lo" None 0 true)
     = true
  /\ net.IsLoopback (interfaceIP.IP (addr "lo" "::1/128")) = true
  /\ interfaceSpec.Match (interfaceSpec.mk "lo[0]" false "lo" None 0 true) 0
       (addr "lo" "::1/128") = true.
Proof.
  split; [reflexivity|]. split; [reflexivity|]. split; [reflexivity|].
  exact (proj2 (indexed_rule_tests_name_and_counter "lo[0]" _
                  eq_refl eq_refl) (interfaceIP.IP (addr "lo" "::1/128"))).
Defined.

(** ** C2 *)

(** C2, as the specification has it, fails: the rule of the bare name
    ["eth0"] does not accept the IPv6 address [fe80::1] of [eth0]. *)
Lemma bare_name_rejects_ipv6 :
  isBareName "eth0" = true
  /\ snd (parseInterfaceSpec "eth0") = None
  /\ interfaceIP.Name (addr "eth0" "fe80::1/64") = "eth0"
  /\ interfaceIP.IsIPv4 (addr "eth0" "fe80::1/64") = false
  /\ interfaceSpec.Match (fst (parseInterfaceSpec "eth0")) 0
       (addr "eth0" "fe80::1/64") = false.
Proof. repeat split; vm_compute; reflexivity. Qed.

(** C2, amended.  A rule parsed from a bare interface name accepts exactly
    the IPv4 addresses of that interface, as the rule of [name:inet] does;
    it accepts no IPv6 address. *)
Theorem bare_name_matches_ipv4_only :
  forall s : string,
    isBareName s = true ->
    exists spec : interfaceSpec.t,
      parseInterfaceSpec s = (spec, None)
      /\ forall (index : Z) (iip : interfaceIP.t),
          interfaceSpec.Match spec index iip
          = (s =? interfaceIP.Name iip)%string && interfaceIP.IsIPv4 iip.
Proof.
  intros s B. eexists. split; [apply parse_bare; exact B|].
  intros. apply Match_bare; exact B.
Qed.

Lemma bare_name_matches_ipv4_only_witness :
  isBareName "eth0" = true
  /\ exists spec : interfaceSpec.t,
      parseInterfaceSpec "eth0" = (spec, None)
      /\ forall (index : Z) (iip : interfaceIP.t),
          interfaceSpec.Match spec index iip
          = ("eth0" =? interfaceIP.Name iip)%string && interfaceIP.IsIPv4 iip.
Proof.
  split; [reflexivity|].
  apply (bare_name_matches_ipv4_only "eth0"). reflexivity.
Defined.

(** ** C3 *)

(** C3.  The rules of ["inet"] and ["inet6"] are built without their text:
    rendered again they give the empty string, not the text parsed.  (Every
    other text is kept: [parse_keeps_text].) *)
Theorem wildcard_rule_loses_its_text :
  snd (parseInterfaceSpec "inet") = None
  /\ interfaceSpec.String (fst (parseInterfaceSpec "inet")) = ""
  /\ snd (parseInterfaceSpec "inet6") = None
  /\ interfaceSpec.String (fst (parseInterfaceSpec "inet6")) = "".
Proof. repeat split. Qed.

(** ** C8 *)

Lemma wildcards_select_nothing (specs : list interfaceSpec.t)
      (ips : list interfaceIP.t) :
  Forall isWildcard specs ->
  Forall (fun iip => net.IsLoopback (interfaceIP.IP iip) = true) ips ->
  findIPWithSpecs specs ips = ("", Some (noMatchError specs ips)).
Proof.
  intros W L. apply findIPWithSpecs_none.
  eapply Forall_impl; [|exact W]. intros spec Hs.
  apply firstMatch_None. apply Forall_forall. intros [iip k] Hin. simpl.
  apply in_combine_l in Hin. rewrite Forall_forall in L.
  specialize (L iip Hin).
  destruct Hs as [-> | ->]; [rewrite Match_inet | rewrite Match_inet6];
    rewrite L; reflexivity.
Qed.

(** C8.  A wildcard rule (the rule of ["inet"] or of ["inet6"]) matches an
    address exactly when the address is not a loopback address and is of
    the version of the rule; so when all addresses are loopback addresses,
    wildcard rules select nothing: the selection fails with the no-match
    error, and so does [GetIP] on a host whose addresses are all loopback
    addresses. *)
Theorem wildcard_rule_skips_loopback :
  (snd (parseInterfaceSpec "inet") = None
   /\ snd (parseInterfaceSpec "inet6") = None)
  /\ (forall (index : Z) (iip : interfaceIP.t),
         interfaceSpec.Match (fst (parseInterfaceSpec "inet")) index iip
         = negb (net.IsLoopback (interfaceIP.IP iip))
           && interfaceIP.IsIPv4 iip)
  /\ (forall (index : Z) (iip : interfaceIP.t),
         interfaceSpec.Match (fst (parseInterfaceSpec "inet6")) index iip
         = negb (net.IsLoopback (interfaceIP.IP iip))
           && negb (interfaceIP.IsIPv4 iip))
  /\ (forall (specs : list interfaceSpec.t) (ips : list interfaceIP.t),
         Forall isWildcard specs ->
         Forall (fun iip => net.IsLoopback (interfaceIP.IP iip) = true) ips ->
         findIPWithSpecs specs ips = ("", Some (noMatchError specs ips)))
  /\ (forall (h : host) (interfaces : list net.Interface) (s : string),
         s = "inet" \/ s = "inet6" ->
         Interfaces h = (interfaces, None) ->
         let ips := fst (fst (getinterfaceIPs interfaces)) in
         ips <> [] \/ snd (fst (getinterfaceIPs interfaces)) = None ->
         Forall (fun iip => net.IsLoopback (interfaceIP.IP iip) = true) ips ->
         fst (GetIP h [s])
         = ("", Some (noMatchError [fst (parseInterfaceSpec s)] ips))).
Proof.
  split; [split; reflexivity|].
  split; [exact Match_inet|]. split; [exact Match_inet6|].
  split; [exact wildcards_select_nothing|].
  intros h interfaces s Hs I ips NF L.
  assert (W : Forall isWildcard [fst (parseInterfaceSpec s)]).
  { constructor; [|constructor]. destruct Hs as [-> | ->]; [left|right];
      reflexivity. }
  assert (P : parseInterfaceSpecs (orDefault [s])
              = (([fst (parseInterfaceSpec s)], None), [])).
  { destruct Hs as [-> | ->]; reflexivity. }
  rewrite GetIP_paths, P, I. unfold ips in *.
  destruct (getinterfaceIPs interfaces) as [[l [e|]] t1]; simpl in *.
  - destruct l; [destruct NF; congruence|].
    simpl. apply wildcards_select_nothing; assumption.
  - apply wildcards_select_nothing; assumption.
Qed.

Lemma wildcard_rule_skips_loopback_witness :
  let specs := [fst (parseInterfaceSpec "inet");
                fst (parseInterfaceSpec "inet6")] in
  let ips := [addr "lo" "::1/128"; addr "lo" "127.0.0.1/8"] in
  let h := hostOf [("lo", ["127.0.0.1/8"; "::1/128"])] in
  (Forall isWildcard specs
   /\ Forall (fun iip => net.IsLoopback (interfaceIP.IP iip) = true) ips
   /\ findIPWithSpecs specs ips = ("", Some (noMatchError specs ips)))
  /\ fst (GetIP h ["inet"])
     = ("", Some (noMatchError [fst (parseInterfaceSpec "inet")] ips)).
Proof.
  assert (W : Forall isWildcard [fst (parseInterfaceSpec "inet");
                                 fst (parseInterfaceSpec "inet6")]).
  { constructor; [left; reflexivity|].
    constructor; [right; reflexivity|constructor]. }
  assert (L : Forall (fun iip => net.IsLoopback (interfaceIP.IP iip) = true)
                     [addr "lo" "::1/128"; addr "lo" "127.0.0.1/8"]).
  { constructor; [reflexivity|]. constructor; [reflexivity|constructor]. }
  split.
  - split; [exact W|]. split; [exact L|].
    exact (proj1 (proj2 (proj2 (proj2 wildcard_rule_skips_loopback))) _ _ W L).
  - exact (proj2 (proj2 (proj2 (proj2 wildcard_rule_skips_loopback)))
             (hostOf [("lo", ["127.0.0.1/8"; "::1/128"])]) _ "inet"
             (or_introl eq_refl) eq_refl (or_intror eq_refl) L).
Defined.

(** ** C9 *)

(** C9.  When some text of the list does not parse, [GetIP] returns the
    empty string and the aggregated parse error, whatever the host and
    whatever the other texts: the only effect is the printing of that
    error, no interface is asked for and nothing is selected. *)
Theorem parse_error_ends_resolution :
  forall (h : host) (specList : list string),
    (exists s, In s specList /\ snd (parseInterfaceSpec s) <> None) ->
    failureMessages specList <> []
    /\ let err := fmt.Sprintf0 (strings.Join (failureMessages specList) LF) in
       GetIP h specList = (("", Some err), [Println err]).
Proof.
  intros h specList (s & Hin & Hs).
  assert (F : failureMessages specList <> []).
  { intros E. apply failureMessages_nil in E.
    rewrite Forall_forall in E. apply Hs, E, Hin. }
  split; [exact F|].
  rewrite GetIP_paths.
  assert (D : orDefault specList = specList)
    by (destruct specList; [destruct Hin | reflexivity]).
  rewrite D, parseInterfaceSpecs_spec.
  destruct (failureMessages specList); [congruence | reflexivity].
Qed.

Lemma parse_error_ends_resolution_witness :
  let h := hostOf [("eth0", ["10.0.0.5/24"])] in
  let specList := ["eth0"; "eth0[x]"] in
  (exists s, In s specList /\ snd (parseInterfaceSpec s) <> None)
  /\ GetIP h specList
     = (("", Some "Unable to parse interface spec: eth0[x]"),
        [Println "Unable to parse interface spec: eth0[x]"]).
Proof.
  assert (E : exists s, In s ["eth0"; "eth0[x]"]
                        /\ snd (parseInterfaceSpec s) <> None).
  { exists "eth0[x]". split; [right; left; reflexivity | discriminate]. }
  split; [exact E|].
  exact (proj2 (parse_error_ends_resolution
                  (hostOf [("eth0", ["10.0.0.5/24"])]) _ E)).
Defined.

(** ** C4 *)

(** C4.  While a rule scans a sorted address list, the counter is 0 at the
    first address of an interface and one more at each further address of
    that interface: for every interface name (the empty name apart, see
    below) the counters met on the interface are 0, 1, 2, ...  A rule
    parsed from [name[i]] therefore selects the address of rank [i],
    counted from 0, among the addresses of its interface in the order of
    the list, and fails when there are not that many.  (The bound on the
    length is that of a Go slice.) *)
Theorem indexed_rule_selects_ith_address :
  forall (s : string) (spec : interfaceSpec.t) (ips : list interfaceIP.t),
    parseInterfaceSpec s = (spec, None) ->
    interfaceSpec.HasIndex spec = true ->
    StronglySorted ipLe ips ->
    net.len ips <= MaxInt ->
    (forall n : string,
        n <> "" ->
        map snd (filter (fun p => (interfaceIP.Name (fst p) =? n)%string)
                        (counted ips))
        = map Z.of_nat (seq 0 (List.length (onInterface n ips))))
    /\ interfaceSpec.Name spec <> ""
    /\ 0 <= interfaceSpec.Index spec
    /\ findIPWithSpecs [spec] ips
       = match nth_error (onInterface (interfaceSpec.Name spec) ips)
                         (Z.to_nat (interfaceSpec.Index spec)) with
         | Some iip => (interfaceIP.IPString iip, None)
         | None => ("", Some (noMatchError [spec] ips))
         end.
Proof.
  intros s spec ips P HI S B.
  destruct (parse_indexed s spec P HI) as (Hn & Hw & Hnet & Hi).
  split; [intros n Hne; apply counters_on_sorted; assumption|].
  split; [exact Hn|]. split; [lia|].
  unfold findIPWithSpecs.
  rewrite findFirst_firstMatch,
    (indexed_on_sorted spec HI Hnet Hw Hn Hi ips S B).
  destruct (nth_error _ _); reflexivity.
Qed.

(** The example of the specification: [eth0] bound to [10.0.0.5] and
    [10.0.0.6], rule ["eth0[1]"]. *)
Lemma indexed_rule_selects_ith_address_witness :
  let spec := interfaceSpec.mk "eth0[1]" false "eth0" None 1 true in
  let ips := [addr "eth0" "10.0.0.5/24"; addr "eth0" "10.0.0.6/24"] in
  parseInterfaceSpec "eth0[1]" = (spec, None)
  /\ interfaceSpec.HasIndex spec = true
  /\ StronglySorted ipLe ips
  /\ net.len ips <= MaxInt
  /\ "eth0" <> ""
  /\ map snd (filter (fun p => (interfaceIP.Name (fst p) =? "eth0")%string)
                     (counted ips)) = [0; 1]
  /\ findIPWithSpecs [spec] ips = ("10.0.0.6", None).
Proof.
  assert (S : StronglySorted ipLe
                [addr "eth0" "10.0.0.5/24"; addr "eth0" "10.0.0.6/24"]).
  { constructor.
    - constructor; [constructor | constructor].
    - constructor; [|constructor].
      right. split; [reflexivity | vm_compute; discriminate]. }
  assert (B : net.len [addr "eth0" "10.0.0.5/24"; addr "eth0" "10.0.0.6/24"]
              <= MaxInt) by (vm_compute; discriminate).
  assert (N : "eth0" <> "") by discriminate.
  split; [reflexivity|]. split; [reflexivity|].
  split; [exact S|]. split; [exact B|]. split; [exact N|].
  destruct (indexed_rule_selects_ith_address "eth0[1]" _ _ eq_refl eq_refl S B)
    as (C & _ & _ & F).
  split; [exact (C "eth0" N) | exact F].
Defined.

(** On an interface without a name the loop starts counting at 1, as
    [iface] starts as the empty string; no rule with an index can name
    such an interface ([parse_indexed]). *)
Example counter_on_unnamed_interface :
  counters [addr "" "10.0.0.5/24"; addr "" "10.0.0.6/24"] 0 "" = [1; 2].
Proof. reflexivity. Qed.

(** ** C5 *)

(** C5.  The address list the enumeration returns, which is the list
    [GetIP] hands to the selector, is the gathered list sorted by interface
    name ascending and then by the 16-byte form ascending.  The sort is
    stable (addresses the order does not tell apart keep the order they
    were gathered in) and sorting the list again leaves it as it is. *)
Theorem address_list_is_sorted :
  forall interfaces : list net.Interface,
    let raw := fst (gathered interfaces) in
    let ips := fst (fst (getinterfaceIPs interfaces)) in
    ips = sort.Stable _ ByInterfaceThenIP.Less raw
    /\ StronglySorted ipLe ips
    /\ Permutation raw ips
    /\ (forall a, filter (unordered ByInterfaceThenIP.Less a) ips
                  = filter (unordered ByInterfaceThenIP.Less a) raw)
    /\ sort.Stable _ ByInterfaceThenIP.Less ips = ips
    /\ (forall (h : host) (specList : list string)
               (specs : list interfaceSpec.t) (t0 : list event),
           parseInterfaceSpecs (orDefault specList) = ((specs, None), t0) ->
           Interfaces h = (interfaces, None) ->
           ips <> [] \/ snd (fst (getinterfaceIPs interfaces)) = None ->
           fst (GetIP h specList) = findIPWithSpecs specs ips).
Proof.
  intros interfaces raw ips.
  assert (E : ips = sort.Stable _ ByInterfaceThenIP.Less raw).
  { unfold ips. rewrite getinterfaceIPs_spec. simpl.
    destruct (snd (gathered interfaces)); reflexivity. }
  split; [exact E|]. rewrite E.
  split.
  { apply StronglySorted_ipLe.
    exact (Stable_sorted _ _ Less_asym Less_negtrans raw). }
  split; [apply Stable_perm|].
  split.
  { intros a. apply Stable_stable. intros x y.
    apply unordered_class. exact Less_negtrans. }
  split.
  { exact (Stable_idempotent _ _ Less_asym Less_negtrans raw). }
  intros h specList specs t0 P I NF. rewrite <- E.
  rewrite GetIP_paths, P, I.
  unfold ips in *.
  destruct (getinterfaceIPs interfaces) as [[l [e|]] t1]; simpl in *.
  - destruct l; [destruct NF; congruence | reflexivity].
  - reflexivity.
Qed.

Lemma address_list_is_sorted_witness :
  let interfaces :=
    [net.mkInterface "eth1" (["192.168.5.5/24"], None);
     net.mkInterface "eth0" (["10.0.0.6/24 10.0.0.5/24"], None)] in
  let h := mkHost (interfaces, None) in
  let specs := [interfaceSpec.mk "eth0[1]" false "eth0" None 1 true] in
  parseInterfaceSpecs (orDefault ["eth0[1]"]) = ((specs, None), [])
  /\ Interfaces h = (interfaces, None)
  /\ snd (fst (getinterfaceIPs interfaces)) = None
  /\ fst (fst (getinterfaceIPs interfaces))
     = [addr "eth0" "10.0.0.5/24"; addr "eth0" "10.0.0.6/24";
        addr "eth1" "192.168.5.5/24"]
  /\ fst (GetIP h ["eth0[1]"])
     = findIPWithSpecs specs (fst (fst (getinterfaceIPs interfaces))).
Proof.
  split; [reflexivity|]. split; [reflexivity|]. split; [reflexivity|].
  split; [reflexivity|].
  apply (proj2 (proj2 (proj2 (proj2 (proj2
           (address_list_is_sorted
              [net.mkInterface "eth1" (["192.168.5.5/24"], None);
               net.mkInterface "eth0" (["10.0.0.6/24 10.0.0.5/24"], None)]))))))
    with (t0 := []).
  - reflexivity.
  - reflexivity.
  - right. reflexivity.
Defined.

(** ** C6 *)



(** ** C7 *)

(** What holds of C7: the rules of all the items that parse are returned,
    in order, whatever the other items are, and the error is there exactly
    when some item does not parse ([parseInterfaceSpecs_spec]); when no
    message holds a ['%'], the error is the messages joined by line
    feeds. *)
Lemma aggregated_parse_error_plain (items : list string) :
  failureMessages items <> [] ->
  strings.ContainsByte (strings.Join (failureMessages items) LF) "%" = false ->
  fst (parseInterfaceSpecs items)
  = (parsedRules items, Some (strings.Join (failureMessages items) LF)).
Proof.
  intros F N. rewrite parseInterfaceSpecs_spec.
  destruct (failureMessages items) eqn:E; [congruence|].
  simpl. rewrite Sprintf0_plain; auto.
Qed.

(** C7.  The joined messages are passed to [fmt.Errorf] as its format, so
    a ['%'] in an item that does not parse is read as a verb without
    operand: for the items ["eth0"] and ["fe80::1%eth0/64"] the message of
    the error is not the message of the failing item. *)
Theorem aggregated_parse_error_is_reformatted :
  let items := ["eth0"; "fe80::1%eth0/64"] in
  parsedRules items = [interfaceSpec.mk "eth0" false "eth0" None 0 false]
  /\ failureMessages items
     = ["Unable to parse interface spec: fe80::1%eth0/64"]
  /\ parseInterfaceSpecs items
     = ((parsedRules items,
         Some "Unable to parse interface spec: fe80::1%!e(MISSING)th0/64"),
        [Println "Unable to parse interface spec: fe80::1%!e(MISSING)th0/64"]).
Proof. repeat split. Qed.

(** ** C1 *)

(** An earlier rule that matches some address decides, whatever the rules
    after it match. *)
Lemma earlier_rule_wins (spec : interfaceSpec.t)
      (later : list interfaceSpec.t) (ips : list interfaceIP.t) :
  (exists p, In p (counted ips)
             /\ interfaceSpec.Match spec (snd p) (fst p) = true) ->
  exists iip, firstMatch spec (counted ips) = Some iip
              /\ findIPWithSpecs (spec :: later) ips
                 = (interfaceIP.IPString iip, None).
Proof.
  intros (p & Hin & M).
  destruct (firstMatch spec (counted ips)) as [iip|] eqn:F.
  - exists iip. split; auto.
    apply (findIPWithSpecs_first [] later spec ips iip); auto.
  - apply firstMatch_None in F. rewrite Forall_forall in F.
    rewrite (F p Hin) in M. discriminate.
Qed.

(** Interfaces have names.  A CIDR rule has the empty name, the zero value
    of the field, and the match test compares the names before it looks at
    the network: an address record with the empty name, which no interface
    of a host gives, would be tested as an address of the rule's own
    interface.  This is why the property below is stated for addresses of
    named interfaces. *)
Remark empty_name_is_tested_as_a_name :
  let iip := addr "" "fe80::1/64" in
  exists n : net.IPNet,
    parseInterfaceSpec "fe80::/10"
    = (interfaceSpec.mk "fe80::/10" false "" (Some n) 0 false, None)
    /\ net.Contains n (interfaceIP.IP iip) = true
    /\ interfaceSpec.Match (fst (parseInterfaceSpec "fe80::/10")) 0 iip
       = false.
Proof.
  eexists; repeat split; vm_compute; reflexivity.
Qed.

(** A rule whose test depends on the address alone selects the first
    address of the list that passes the test. *)
Lemma firstMatch_by_address (spec : interfaceSpec.t)
      (f : interfaceIP.t -> bool) (ips : list interfaceIP.t) (cs : list Z) :
  (forall iip index, In iip ips -> interfaceSpec.Match spec index iip = f iip) ->
  List.length cs = List.length ips ->
  firstMatch spec (combine ips cs) = find f ips.
Proof.
  revert cs; induction ips as [|a ips IH]; intros [|c cs] H; simpl;
    try discriminate; auto.
  intros [= L]. rewrite (H a c) by (left; reflexivity).
  destruct (f a); auto.
  apply IH; auto. intros iip index Hin. apply H. right. exact Hin.
Qed.

(** C1.  On a host whose interfaces have names, [findIPWithSpecs] tries the
    rules in the order of the list and, for a rule, the addresses in the
    order of the list, each with its counter.  Its result is an address
    exactly when some rule matches some address, and is then the display
    string of the first address matched by the first rule that matches
    any: an earlier rule that matches an address decides, whatever the
    rules after it match.  A rule parsed from a CIDR literal matches
    exactly the addresses its network contains, whatever the interface and
    the counter; placed first, it selects the first address of the list
    in its network. *)
Theorem selector_takes_first_match_in_rule_order :
  forall (specs : list interfaceSpec.t) (ips : list interfaceIP.t),
    Forall (fun iip => interfaceIP.Name iip <> "") ips ->
    (forall ip : string,
        findIPWithSpecs specs ips = (ip, None)
        <-> exists before spec after p1 iip k p2,
            specs = before ++ spec :: after
            /\ counted ips = p1 ++ (iip, k) :: p2
            /\ (forall r p,
                   In r before -> In p (counted ips) ->
                   interfaceSpec.Match r (snd p) (fst p) = false)
            /\ (forall p, In p p1 ->
                          interfaceSpec.Match spec (snd p) (fst p) = false)
            /\ interfaceSpec.Match spec k iip = true
            /\ ip = interfaceIP.IPString iip)
    /\ (forall before spec after,
           specs = before ++ spec :: after ->
           (forall r p,
               In r before -> In p (counted ips) ->
               interfaceSpec.Match r (snd p) (fst p) = false) ->
           (exists p, In p (counted ips)
                      /\ interfaceSpec.Match spec (snd p) (fst p) = true) ->
           exists iip,
             firstMatch spec (counted ips) = Some iip
             /\ findIPWithSpecs specs ips = (interfaceIP.IPString iip, None))
    /\ (forall (s : string) (spec : interfaceSpec.t) (n : net.IPNet),
           parseInterfaceSpec s = (spec, None) ->
           interfaceSpec.Network spec = Some n ->
           (forall (index : Z) (iip : interfaceIP.t),
               In iip ips ->
               interfaceSpec.Match spec index iip
               = net.Contains n (interfaceIP.IP iip))
           /\ (forall (later : list interfaceSpec.t) (iip : interfaceIP.t),
                  specs = spec :: later ->
                  find (fun a => net.Contains n (interfaceIP.IP a)) ips
                  = Some iip ->
                  findIPWithSpecs specs ips
                  = (interfaceIP.IPString iip, None))).
Proof.
  intros specs ips Named.
  assert (None_all : forall before,
             (forall r p,
                 In r before -> In p (counted ips) ->
                 interfaceSpec.Match r (snd p) (fst p) = false)
             -> Forall (fun r => firstMatch r (counted ips) = None) before).
  { intros before H. apply Forall_forall. intros r Hr.
    apply firstMatch_None, Forall_forall. intros p Hp. apply H; assumption. }
  split; [|split].
  - intros ip. split.
    + intros R.
      destruct (findIPWithSpecs_inv specs ips ip R)
        as (before & spec & after & iip & -> & F & M & ->).
      apply firstMatch_Some in M as (p1 & k & p2 & C & Mk & F1).
      exists before, spec, after, p1, iip, k, p2.
      repeat split; auto.
      * intros r p Hr Hp. rewrite Forall_forall in F.
        specialize (F r Hr). apply firstMatch_None in F.
        rewrite Forall_forall in F. auto.
      * intros p Hp. rewrite Forall_forall in F1. auto.
    + intros (before & spec & after & p1 & iip & k & p2
              & -> & C & F & F1 & Mk & ->).
      apply findIPWithSpecs_first; [apply None_all; exact F|].
      apply firstMatch_Some. exists p1, k, p2.
      repeat split; auto. apply Forall_forall. exact F1.
  - intros before spec after -> F (p & Hin & M).
    destruct (firstMatch spec (counted ips)) as [iip|] eqn:E.
    + exists iip. split; [reflexivity|].
      apply findIPWithSpecs_first; [apply None_all; exact F | exact E].
    + apply firstMatch_None in E. rewrite Forall_forall in E.
      rewrite (E p Hin) in M. discriminate.
  - intros s spec n P N.
    assert (A : forall (index : Z) (iip : interfaceIP.t),
               In iip ips ->
               interfaceSpec.Match spec index iip
               = net.Contains n (interfaceIP.IP iip)).
    { intros index iip Hin. apply (Match_cidr_named s); auto.
      rewrite Forall_forall in Named. apply Named. exact Hin. }
    split; [exact A|].
    intros later iip -> Fd.
    apply (findIPWithSpecs_first [] later spec ips iip); [constructor|].
    unfold counted.
    rewrite (firstMatch_by_address spec
               (fun a => net.Contains n (interfaceIP.IP a)));
      [exact Fd | intros a index Hin; apply A; exact Hin
       | apply counters_length].
Qed.

(** The example of the specification: rules ["192.168.0.0/16"] and
    ["eth0:inet"], [eth0] bound to [10.0.0.5] and [eth1] to [192.168.5.5].
    Both rules match an address; the CIDR rule comes first and decides,
    though the address of [eth0] comes first in the list. *)
Lemma selector_takes_first_match_in_rule_order_witness :
  let cidr := fst (parseInterfaceSpec "192.168.0.0/16") in
  let eth0 := fst (parseInterfaceSpec "eth0:inet") in
  let ips := [addr "eth0" "10.0.0.5/24"; addr "eth1" "192.168.5.5/24"] in
  Forall (fun iip => interfaceIP.Name iip <> "") ips
  /\ interfaceSpec.Match eth0 0 (addr "eth0" "10.0.0.5/24") = true
  /\ interfaceSpec.Match cidr 0 (addr "eth0" "10.0.0.5/24") = false
  /\ interfaceSpec.Match cidr 0 (addr "eth1" "192.168.5.5/24") = true
  /\ findIPWithSpecs [cidr; eth0] ips = ("192.168.5.5", None)
  /\ findIPWithSpecs [eth0; cidr] ips = ("10.0.0.5", None).
Proof.
  intros cidr eth0 ips.
  assert (Named : Forall (fun iip => interfaceIP.Name iip <> "") ips)
    by (repeat constructor; discriminate).
  split; [exact Named|].
  split; [vm_compute; reflexivity|].
  split; [vm_compute; reflexivity|].
  split; [vm_compute; reflexivity|].
  split.
  - destruct (selector_takes_first_match_in_rule_order [cidr; eth0] ips Named)
      as (_ & _ & Cidr).
    destruct (Cidr "192.168.0.0/16" cidr _ eq_refl eq_refl) as [_ Sel].
    rewrite (Sel [eth0] (addr "eth1" "192.168.5.5/24") eq_refl);
      vm_compute; reflexivity.
  - destruct (selector_takes_first_match_in_rule_order [eth0; cidr] ips Named)
      as (_ & First & _).
    destruct (First [] eth0 [cidr] eq_refl) as (iip & M & R).
    + intros r p [].
    + exists (addr "eth0" "10.0.0.5/24", 0). split.
      * left. vm_compute. reflexivity.
      * vm_compute. reflexivity.
    + rewrite R. vm_compute in M. injection M as <-.
      vm_compute. reflexivity.
Defined.

(** * Further properties of the code *)

(** ** The grammar of [parseInterfaceSpec] *)

Lemma span_stop (f : ascii -> bool) (w rest : string) :
  forallb f (list_ascii_of_string w) = true ->
  (forall c r, rest = String c r -> f c = false) ->
  span f (w ++ rest)%string = (w, rest).
Proof.
  intros W R. induction w as [|c w IH]; simpl in *.
  - destruct rest as [|c r]; simpl; auto. rewrite (R c r eq_refl). reflexivity.
  - apply andb_true_iff in W as [-> W]. rewrite (IH W). reflexivity.
Qed.

Lemma forallb_append_inv (f : ascii -> bool) (a b : string) (c : ascii) :
  forallb f (list_ascii_of_string (a ++ String c b)%string) = true ->
  f c = true.
Proof.
  induction a as [|d a IH]; simpl; rewrite andb_true_iff; intros [H1 H2]; auto.
Qed.

Lemma digits_value_total (s : string) (acc : Z) :
  forallb isDigit (list_ascii_of_string s) = true ->
  exists v, strconv.digits_value s acc = Some v.
Proof.
  revert acc; induction s as [|c s IH]; simpl; intros acc; eauto.
  rewrite andb_true_iff. intros [-> D]. apply IH; exact D.
Qed.

Lemma Atoi_of_digits (d : string) (v : Z) :
  d <> "" -> forallb isDigit (list_ascii_of_string d) = true ->
  strconv.digits_value d 0 = Some v ->
  strconv.Atoi d = if v <=? MaxInt then Some v else None.
Proof.
  intros N D V. unfold strconv.Atoi.
  destruct d as [|c r]; [congruence|].
  simpl in D. apply andb_true_iff in D as [Dc _].
  assert (P : Ascii.eqb c "+" = false).
  { destruct (Ascii.eqb_spec c "+"); auto. subst c. discriminate. }
  assert (M : Ascii.eqb c "-" = false).
  { destruct (Ascii.eqb_spec c "-"); auto. subst c. discriminate. }
  rewrite P, M, V. reflexivity.
Qed.

Lemma ParseCIDR_network (s : string) (ip : net.IP) (n : option net.IPNet) :
  net.ParseCIDR s = (ip, n, None) -> exists m, n = Some m.
Proof.
  unfold net.ParseCIDR.
  repeat (break_match; try discriminate); intros [= <- <-]; eauto.
Qed.

(** X1.  Apart from the two literals ["inet"] and ["inet6"], the rule
    [parseInterfaceSpec] returns for a text renders as that text again,
    whether the text is a bare name, [name[i]], [name:inet], [name:inet6]
    or a CIDR literal, and also when the text does not parse. *)
Theorem parsed_rule_renders_as_its_text :
  forall s : string,
    s <> "inet" -> s <> "inet6" ->
    interfaceSpec.String (fst (parseInterfaceSpec s)) = s.
Proof.
  intros s H1 H2. unfold interfaceSpec.String, parseInterfaceSpec.
  apply String.eqb_neq in H1, H2. rewrite H1, H2.
  repeat (break_match; simpl; auto).
Qed.

Lemma parsed_rule_renders_as_its_text_witness :
  "2001:db8::/32" <> "inet" /\ "2001:db8::/32" <> "inet6"
  /\ snd (parseInterfaceSpec "2001:db8::/32") = None
  /\ interfaceSpec.String (fst (parseInterfaceSpec "2001:db8::/32"))
     = "2001:db8::/32".
Proof.
  assert (A : "2001:db8::/32" <> "inet") by discriminate.
  assert (B : "2001:db8::/32" <> "inet6") by discriminate.
  split; [exact A|]. split; [exact B|]. split; [reflexivity|].
  exact (parsed_rule_renders_as_its_text "2001:db8::/32" A B).
Defined.

(** X2.  A rule the parser returns without error is of exactly one kind:
    a wildcard (name ["*"], no index, no network), a rule on a named
    interface (the name a non-empty word, no network, the index within
    [0, MaxInt] and never together with the IPv6 flag), or a CIDR rule
    (empty name, a network, no index, no IPv6 flag). *)
Theorem parsed_rule_is_of_one_kind :
  forall (s : string) (spec : interfaceSpec.t),
    parseInterfaceSpec s = (spec, None) ->
    (interfaceSpec.Name spec = "*"
     /\ interfaceSpec.HasIndex spec = false
     /\ interfaceSpec.Network spec = None
     /\ interfaceSpec.Index spec = 0
     /\ (s = "inet" /\ interfaceSpec.IPv6 spec = false
         \/ s = "inet6" /\ interfaceSpec.IPv6 spec = true))
    \/ (interfaceSpec.Name spec <> ""
        /\ forallb isWord (list_ascii_of_string (interfaceSpec.Name spec))
           = true
        /\ interfaceSpec.Network spec = None
        /\ interfaceSpec.Spec spec = s
        /\ (interfaceSpec.HasIndex spec = true
            /\ interfaceSpec.IPv6 spec = false
            /\ 0 <= interfaceSpec.Index spec <= MaxInt
            \/ interfaceSpec.HasIndex spec = false
               /\ interfaceSpec.Index spec = 0))
    \/ (interfaceSpec.Name spec = ""
        /\ (exists n, interfaceSpec.Network spec = Some n)
        /\ interfaceSpec.HasIndex spec = false
        /\ interfaceSpec.IPv6 spec = false
        /\ interfaceSpec.Index spec = 0
        /\ interfaceSpec.Spec spec = s).
Proof.
  intros s spec. unfold parseInterfaceSpec.
  destruct (String.eqb_spec s "inet") as [->|N4].
  { intros [= <-]. left. simpl. auto 10. }
  destruct (String.eqb_spec s "inet6") as [->|N6].
  { intros [= <-]. left. simpl. auto 10. }
  destruct (ifaceSpec_FindStringSubmatch s) as [[[name index] inet]|] eqn:R.
  - apply ifaceSpec_groups in R as (Hn & Hw & Hd).
    destruct (negb (index =? "")%string).
    + destruct (strconv.Atoi index) as [i|] eqn:A; [|discriminate].
      intros [= <-]. right; left. simpl.
      pose proof (Atoi_digits _ _ Hd A). auto 10.
    + destruct (negb (inet =? "")%string);
        [destruct (inet =? "inet")%string|];
        intros [= <-]; right; left; simpl; auto 10.
  - destruct (net.ParseCIDR s) as [[ip n] [e|]] eqn:C; [discriminate|].
    intros [= <-]. right; right. simpl.
    destruct (ParseCIDR_network _ _ _ C) as [m ->]. eauto 10.
Qed.

Lemma parsed_rule_is_of_one_kind_witness :
  parseInterfaceSpec "eth0:inet6"
  = (interfaceSpec.mk "eth0:inet6" true "eth0" None 0 false, None)
  /\ interfaceSpec.Name (interfaceSpec.mk "eth0:inet6" true "eth0" None 0 false)
     <> "*"
  /\ interfaceSpec.Name (interfaceSpec.mk "eth0:inet6" true "eth0" None 0 false)
     <> "".
Proof.
  split; [reflexivity|].
  destruct (parsed_rule_is_of_one_kind "eth0:inet6" _ eq_refl)
    as [(H & _) | [(H & _) | (H & _)]].
  - discriminate H.
  - split; [discriminate | exact H].
  - discriminate H.
Defined.

(** X3.  When a text does not parse, the rule returned holds the text and
    nothing else, and the error names the text: it is either the message
    for a text outside the grammar or, for [name[digits]] with digits that
    do not fit an [int], the message for the index. *)
Theorem parse_error_names_the_text :
  forall (s : string) (spec : interfaceSpec.t) (e : string),
    parseInterfaceSpec s = (spec, Some e) ->
    spec = interfaceSpec.mk s false "" None 0 false
    /\ (e = ("Unable to parse interface spec: " ++ s)%string
        \/ exists index,
            e = ("Unable to parse index " ++ index ++ " in " ++ s)%string
            /\ index <> ""
            /\ forallb isDigit (list_ascii_of_string index) = true
            /\ strconv.Atoi index = None).
Proof.
  intros s spec e. unfold parseInterfaceSpec.
  destruct (s =? "inet")%string; [discriminate|].
  destruct (s =? "inet6")%string; [discriminate|].
  destruct (ifaceSpec_FindStringSubmatch s) as [[[name index] inet]|] eqn:R.
  - apply ifaceSpec_groups in R as (Hn & Hw & Hd).
    destruct (String.eqb_spec index "") as [E|E]; simpl.
    + destruct (negb (inet =? "")%string);
        [destruct (inet =? "inet")%string|]; discriminate.
    + destruct (strconv.Atoi index) as [i|] eqn:A; [discriminate|].
      intros [= <- <-]. split; [reflexivity|]. right. exists index. auto.
  - destruct (net.ParseCIDR s) as [[ip n] [m|]]; [|discriminate].
    intros [= <- <-]. auto.
Qed.

Lemma parse_error_names_the_text_witness :
  let s := "eth0[9223372036854775808]" in
  let spec := interfaceSpec.mk s false "" None 0 false in
  let e := "Unable to parse index 9223372036854775808 in eth0[9223372036854775808]" in
  parseInterfaceSpec s = (spec, Some e)
  /\ (spec = interfaceSpec.mk s false "" None 0 false
      /\ (e = ("Unable to parse interface spec: " ++ s)%string
          \/ exists index,
              e = ("Unable to parse index " ++ index ++ " in " ++ s)%string
              /\ index <> ""
              /\ forallb isDigit (list_ascii_of_string index) = true
              /\ strconv.Atoi index = None)).
Proof.
  split; [reflexivity|].
  exact (parse_error_names_the_text "eth0[9223372036854775808]" _ _ eq_refl).
Defined.

Lemma not_word_text (s a b : string) (c : ascii) :
  forallb isWord (list_ascii_of_string s) = true ->
  isWord c = false ->
  ((a ++ String c b)%string =? s)%string = false.
Proof.
  intros W C. destruct (String.eqb_spec (a ++ String c b)%string s) as [E|E];
    auto.
  rewrite <- E in W. apply forallb_append_inv in W. congruence.
Qed.

(** X4.  The form [name[digits]]: for a name that is a non-empty word and
    one or more decimal digits, the text parses to the rule on that
    interface with the value of the digits as index when the value is at
    most [MaxInt], and is an error for the index when it is larger. *)
Theorem indexed_form_parses_within_int :
  forall w d : string,
    w <> "" -> forallb isWord (list_ascii_of_string w) = true ->
    d <> "" -> forallb isDigit (list_ascii_of_string d) = true ->
    let s := (w ++ "[" ++ d ++ "]")%string in
    exists v,
      strconv.digits_value d 0 = Some v /\ 0 <= v
      /\ parseInterfaceSpec s
         = if v <=? MaxInt
           then (interfaceSpec.mk s false w None v true, None)
           else (interfaceSpec.mk s false "" None 0 false,
                 Some ("Unable to parse index " ++ d ++ " in " ++ s)%string).
Proof.
  intros w d Nw W Nd D s.
  destruct (digits_value_total d 0 D) as [v V]. exists v.
  split; [exact V|]. split; [apply (digits_value_lower d 0 v V); lia|].
  unfold parseInterfaceSpec, ifaceSpec_FindStringSubmatch. subst s.
  change (w ++ "[" ++ d ++ "]")%string with (w ++ String "[" (d ++ "]"))%string.
  rewrite (not_word_text "inet" w (d ++ "]") "[" eq_refl eq_refl).
  rewrite (not_word_text "inet6" w (d ++ "]") "[" eq_refl eq_refl).
  rewrite (span_stop isWord w (String "[" (d ++ "]")) W)
    by (intros c r [= <- _]; reflexivity).
  apply String.eqb_neq in Nw. rewrite Nw. simpl Ascii.eqb. cbv iota.
  rewrite (span_stop isDigit d "]" D) by (intros c r [= <- _]; reflexivity).
  assert (Nd' := Nd). apply String.eqb_neq in Nd'. rewrite Nd'. simpl.
  rewrite (Atoi_of_digits d v Nd D V), ?Nd'.
  destruct (v <=? MaxInt); simpl; rewrite ?Nd'; reflexivity.
Qed.

Lemma indexed_form_parses_within_int_witness :
  "eth0" <> "" /\ forallb isWord (list_ascii_of_string "eth0") = true
  /\ "007" <> "" /\ forallb isDigit (list_ascii_of_string "007") = true
  /\ exists v,
      strconv.digits_value "007" 0 = Some v /\ 0 <= v
      /\ parseInterfaceSpec "eth0[007]"
         = if v <=? MaxInt
           then (interfaceSpec.mk "eth0[007]" false "eth0" None v true, None)
           else (interfaceSpec.mk "eth0[007]" false "" None 0 false,
                 Some "Unable to parse index 007 in eth0[007]").
Proof.
  assert (A : "eth0" <> "") by discriminate.
  assert (B : "007" <> "") by discriminate.
  split; [exact A|]. split; [reflexivity|]. split; [exact B|].
  split; [reflexivity|].
  exact (indexed_form_parses_within_int "eth0" "007" A eq_refl B eq_refl).
Defined.

(** X5.  The forms [name:inet] and [name:inet6], for a name that is a
    non-empty word: [name:inet6] parses to a rule that matches exactly the
    addresses of that interface that are not IPv4 addresses, [name:inet]
    to a rule that matches exactly its IPv4 addresses; neither looks at
    the counter or at loopback. *)
Theorem versioned_forms_match_by_version :
  forall w : string,
    w <> "" -> forallb isWord (list_ascii_of_string w) = true ->
    parseInterfaceSpec (w ++ ":inet6")
    = (interfaceSpec.mk (w ++ ":inet6") true w None 0 false, None)
    /\ parseInterfaceSpec (w ++ ":inet")
       = (interfaceSpec.mk (w ++ ":inet") false w None 0 false, None)
    /\ (forall (index : Z) (iip : interfaceIP.t),
           interfaceSpec.Match (fst (parseInterfaceSpec (w ++ ":inet6")))
                               index iip
           = (w =? interfaceIP.Name iip)%string
             && negb (interfaceIP.IsIPv4 iip))
    /\ (forall (index : Z) (iip : interfaceIP.t),
           interfaceSpec.Match (fst (parseInterfaceSpec (w ++ ":inet")))
                               index iip
           = (w =? interfaceIP.Name iip)%string && interfaceIP.IsIPv4 iip).
Proof.
  intros w Nw W.
  assert (P6 : parseInterfaceSpec (w ++ ":inet6")
               = (interfaceSpec.mk (w ++ ":inet6") true w None 0 false, None)).
  { unfold parseInterfaceSpec, ifaceSpec_FindStringSubmatch.
    change (w ++ ":inet6")%string with (w ++ String ":" "inet6")%string.
    rewrite (not_word_text "inet" w "inet6" ":" eq_refl eq_refl).
    rewrite (not_word_text "inet6" w "inet6" ":" eq_refl eq_refl).
    rewrite (span_stop isWord w (String ":" "inet6") W)
      by (intros c r [= <- _]; reflexivity).
    apply String.eqb_neq in Nw. rewrite Nw. reflexivity. }
  assert (P4 : parseInterfaceSpec (w ++ ":inet")
               = (interfaceSpec.mk (w ++ ":inet") false w None 0 false, None)).
  { unfold parseInterfaceSpec, ifaceSpec_FindStringSubmatch.
    change (w ++ ":inet")%string with (w ++ String ":" "inet")%string.
    rewrite (not_word_text "inet" w "inet" ":" eq_refl eq_refl).
    rewrite (not_word_text "inet6" w "inet" ":" eq_refl eq_refl).
    rewrite (span_stop isWord w (String ":" "inet") W)
      by (intros c r [= <- _]; reflexivity).
    apply String.eqb_neq in Nw. rewrite Nw. reflexivity. }
  split; [exact P6|]. split; [exact P4|].
  rewrite P6, P4. unfold interfaceSpec.Match. simpl.
  rewrite (word_not_star w W). simpl.
  split; intros index iip;
    destruct (w =? interfaceIP.Name iip)%string; simpl; auto;
    destruct (interfaceIP.IsIPv4 iip); reflexivity.
Qed.

Lemma versioned_forms_match_by_version_witness :
  "eth0" <> "" /\ forallb isWord (list_ascii_of_string "eth0") = true
  /\ interfaceSpec.Match (fst (parseInterfaceSpec "eth0:inet6")) 0
       (addr "eth0" "fe80::1/64")
     = ("eth0" =? "eth0")%string
       && negb (interfaceIP.IsIPv4 (addr "eth0" "fe80::1/64")).
Proof.
  assert (A : "eth0" <> "") by discriminate.
  split; [exact A|]. split; [reflexivity|].
  exact (proj1 (proj2 (proj2
           (versioned_forms_match_by_version "eth0" A eq_refl)))
           0 (addr "eth0" "fe80::1/64")).
Defined.

(** ** The selection *)

Lemma counted_addresses (ips : list interfaceIP.t) :
  map fst (counted ips) = ips.
Proof.
  unfold counted. generalize 0 at 1. generalize "" at 1.
  induction ips as [|a ips IH]; intros f i; simpl; auto.
  destruct (advance i f a) as [i' f']. simpl. rewrite IH. reflexivity.
Qed.

Lemma findFirst_None (specs : list interfaceSpec.t)
      (ips : list interfaceIP.t) :
  findFirst specs ips = None ->
  Forall (fun r => firstMatch r (counted ips) = None) specs.
Proof.
  induction specs as [|spec specs IH]; [constructor|].
  rewrite findFirst_firstMatch.
  destruct (firstMatch spec (counted ips)) eqn:M; [discriminate|].
  intros H. constructor; auto.
Qed.

Lemma selection_parts (specs : list interfaceSpec.t)
      (ips : list interfaceIP.t) :
  (findIPWithSpecs specs ips = ("", Some (noMatchError specs ips))
   /\ findFirst specs ips = None)
  \/ exists iip, findIPWithSpecs specs ips = (interfaceIP.IPString iip, None).
Proof.
  unfold findIPWithSpecs.
  destruct (findFirst specs ips) as [ip|] eqn:E; [right | left; auto].
  induction specs as [|spec specs IH]; [discriminate|].
  rewrite findFirst_firstMatch in E.
  destruct (firstMatch spec (counted ips)) as [iip|]; [|auto].
  injection E as <-. exists iip. reflexivity.
Qed.

(** X6.  [findIPWithSpecs] tries the rules in the order of the list and,
    for a rule, the addresses in the order of the list, each with its
    counter.  Either no rule matches any address and the result is the
    no-match error, which names the rules and the addresses; or the result
    is the display string of the first address matched by the first rule
    that matches any, with no error. *)
Theorem selection_is_first_match :
  forall (specs : list interfaceSpec.t) (ips : list interfaceIP.t),
    map fst (counted ips) = ips
    /\ ((findIPWithSpecs specs ips = ("", Some (noMatchError specs ips))
         /\ forall spec p,
             In spec specs -> In p (counted ips) ->
             interfaceSpec.Match spec (snd p) (fst p) = false)
        \/ exists before spec after p1 iip k p2,
            specs = before ++ spec :: after
            /\ counted ips = p1 ++ (iip, k) :: p2
            /\ (forall r p,
                   In r before -> In p (counted ips) ->
                   interfaceSpec.Match r (snd p) (fst p) = false)
            /\ (forall p, In p p1 ->
                          interfaceSpec.Match spec (snd p) (fst p) = false)
            /\ interfaceSpec.Match spec k iip = true
            /\ findIPWithSpecs specs ips = (interfaceIP.IPString iip, None)).
Proof.
  intros specs ips. split; [apply counted_addresses|].
  destruct (findFirst specs ips) as [ip|] eqn:E.
  - right.
    assert (R : findIPWithSpecs specs ips = (ip, None))
      by (unfold findIPWithSpecs; rewrite E; reflexivity).
    destruct (findIPWithSpecs_inv specs ips ip R)
      as (before & spec & after & iip & -> & F & M & ->).
    apply firstMatch_Some in M as (p1 & k & p2 & C & Mk & F1).
    exists before, spec, after, p1, iip, k, p2.
    repeat split; auto.
    + intros r p Hr Hp. rewrite Forall_forall in F.
      specialize (F r Hr). apply firstMatch_None in F.
      rewrite Forall_forall in F. auto.
    + intros p Hp. rewrite Forall_forall in F1. auto.
  - left. split.
    + unfold findIPWithSpecs. rewrite E. reflexivity.
    + intros spec p Hs Hp. apply findFirst_None in E.
      rewrite Forall_forall in E. specialize (E spec Hs).
      apply firstMatch_None in E. rewrite Forall_forall in E. auto.
Qed.

Lemma firstMatch_find (spec : interfaceSpec.t) (ips : list interfaceIP.t)
      (cs : list Z) :
  interfaceSpec.HasIndex spec = false ->
  List.length cs = List.length ips ->
  firstMatch spec (combine ips cs)
  = find (fun iip => interfaceSpec.Match spec 0 iip) ips.
Proof.
  intros H. revert cs; induction ips as [|a ips IH]; intros [|c cs]; simpl;
    try discriminate; auto.
  intros [= L].
  assert (E : interfaceSpec.Match spec c a = interfaceSpec.Match spec 0 a)
    by (unfold interfaceSpec.Match; rewrite H; reflexivity).
  rewrite E. destruct (interfaceSpec.Match spec 0 a); auto.
Qed.

Lemma selection_without_index (spec : interfaceSpec.t)
      (ips : list interfaceIP.t) :
  interfaceSpec.HasIndex spec = false ->
  findIPWithSpecs [spec] ips
  = match find (fun iip => interfaceSpec.Match spec 0 iip) ips with
    | Some iip => (interfaceIP.IPString iip, None)
    | None => ("", Some (noMatchError [spec] ips))
    end.
Proof.
  intros H. unfold findIPWithSpecs. rewrite findFirst_firstMatch.
  unfold counted. rewrite (firstMatch_find spec ips _ H)
    by apply counters_length.
  destruct (find _ ips); reflexivity.
Qed.

(** X7.  A rule without index (a wildcard, a bare name, [name:inet],
    [name:inet6], a CIDR literal) never looks at the counter, so what it
    selects does not depend on how the addresses are grouped: it is the
    first address of the list, in whatever order the list is, that the
    rule matches. *)
Theorem rule_without_index_ignores_counter :
  forall (spec : interfaceSpec.t) (ips : list interfaceIP.t),
    interfaceSpec.HasIndex spec = false ->
    (forall (i j : Z) (iip : interfaceIP.t),
        interfaceSpec.Match spec i iip = interfaceSpec.Match spec j iip)
    /\ findIPWithSpecs [spec] ips
       = match find (fun iip => interfaceSpec.Match spec 0 iip) ips with
         | Some iip => (interfaceIP.IPString iip, None)
         | None => ("", Some (noMatchError [spec] ips))
         end.
Proof.
  intros spec ips H. split.
  - intros i j iip. unfold interfaceSpec.Match. rewrite H. reflexivity.
  - apply selection_without_index; exact H.
Qed.

(** A list that is not sorted: the rule of ["eth1"] still finds the
    address of [eth1]. *)
Lemma rule_without_index_ignores_counter_witness :
  let spec := fst (parseInterfaceSpec "eth1") in
  let ips := [addr "eth1" "fe80::1/64"; addr "eth0" "10.0.0.5/24";
              addr "eth1" "192.168.5.5/24"] in
  interfaceSpec.HasIndex spec = false
  /\ findIPWithSpecs [spec] ips = ("192.168.5.5", None).
Proof.
  split; [reflexivity|].
  exact (proj2 (rule_without_index_ignores_counter
                  (fst (parseInterfaceSpec "eth1"))
                  [addr "eth1" "fe80::1/64"; addr "eth0" "10.0.0.5/24";
                   addr "eth1" "192.168.5.5/24"] eq_refl)).
Defined.

Lemma find_filter {A : Type} (p q : A -> bool) (l : list A) :
  find (fun x => p x && q x) l = find q (filter p l).
Proof.
  induction l as [|a l IH]; simpl; auto.
  destruct (p a); simpl; auto. destruct (q a); auto.
Qed.

Lemma bare_selection (s : string) (ips : list interfaceIP.t) :
  isBareName s = true ->
  findIPWithSpecs [interfaceSpec.mk s false s None 0 false] ips
  = match find interfaceIP.IsIPv4 (onInterface s ips) with
    | Some iip => (interfaceIP.IPString iip, None)
    | None =>
        ("", Some (noMatchError [interfaceSpec.mk s false s None 0 false] ips))
    end.
Proof.
  intros B. rewrite selection_without_index by reflexivity.
  assert (E : find (fun iip => interfaceSpec.Match
                       (interfaceSpec.mk s false s None 0 false) 0 iip) ips
              = find interfaceIP.IsIPv4 (onInterface s ips)).
  { unfold onInterface. rewrite <- find_filter.
    induction ips as [|a ips IH]; simpl; auto.
    rewrite (Match_bare s 0 a B), (String.eqb_sym s), IH. reflexivity. }
  rewrite E. reflexivity.
Qed.

(** X8.  The rule of a bare interface name selects the first IPv4 address
    among the addresses of that interface, in the order of the list, and
    fails with the no-match error when the interface has none (or is not
    there). *)
Theorem bare_name_selects_first_ipv4 :
  forall (s : string) (ips : list interfaceIP.t),
    isBareName s = true ->
    findIPWithSpecs [fst (parseInterfaceSpec s)] ips
    = match find interfaceIP.IsIPv4 (onInterface s ips) with
      | Some iip => (interfaceIP.IPString iip, None)
      | None => ("", Some (noMatchError [fst (parseInterfaceSpec s)] ips))
      end.
Proof.
  intros s ips B. rewrite (parse_bare s B). simpl fst.
  apply bare_selection; exact B.
Qed.

Lemma bare_name_selects_first_ipv4_witness :
  let ips := [addr "eth0" "10.0.0.5/24"; addr "eth0" "10.0.0.6/24";
              addr "eth0" "fe80::1/64"] in
  isBareName "eth0" = true
  /\ findIPWithSpecs [fst (parseInterfaceSpec "eth0")] ips = ("10.0.0.5", None).
Proof.
  split; [reflexivity|].
  exact (bare_name_selects_first_ipv4 "eth0"
           [addr "eth0" "10.0.0.5/24"; addr "eth0" "10.0.0.6/24";
            addr "eth0" "fe80::1/64"] eq_refl).
Defined.

(** ** The display string and the result of [GetIP] *)

Lemma append_nonempty_l (a b : string) : a <> "" -> (a ++ b)%string <> "".
Proof. destruct a; simpl; [congruence | discriminate]. Qed.

Lemma append_nonempty_r (a b : string) : b <> "" -> (a ++ b)%string <> "".
Proof. destruct a; simpl; [auto | discriminate]. Qed.

Lemma appendHex_loop_nonempty (k : nat) (i : Z) :
  0 < i -> net.appendHex_loop (S k) i <> "".
Proof.
  intros H. induction k as [|k IH].
  - simpl. rewrite Z.shiftr_0_r.
    replace (0 <? i) with true by (symmetry; apply Z.ltb_lt; exact H).
    discriminate.
  - change (net.appendHex_loop (S (S k)) i)
      with (let v := Z.shiftr i (Z.of_nat (S k) * 4) in
            if 0 <? v
            then String (net.hexDigit (Z.land v 15))
                        (net.appendHex_loop (S k) i)
            else net.appendHex_loop (S k) i).
    cbv zeta. destruct (0 <? _); [discriminate | exact IH].
Qed.

Lemma group_nonneg (p : list byte) (i : Z) : 0 <= net.group p i.
Proof.
  unfold net.group, u8. apply Z.lor_nonneg. split.
  - apply Z.shiftl_nonneg. apply N2Z.is_nonneg.
  - apply N2Z.is_nonneg.
Qed.

Lemma appendHex_nonempty (p : list byte) (i : Z) :
  net.appendHex (net.group p i) <> "".
Proof.
  unfold net.appendHex. pose proof (group_nonneg p i).
  destruct (Z.eqb_spec (net.group p i) 0); [discriminate|].
  apply appendHex_loop_nonempty. lia.
Qed.

Lemma printGroups_nonempty (fuel : nat) (p : list byte) (e0 e1 : Z) :
  net.printGroups (S fuel) p 0 e0 e1 <> "".
Proof.
  change (net.printGroups (S fuel) p 0 e0 e1)
    with (if 0 =? e0
          then if net.IPv6len <=? e1 then "::"
               else ("::" ++ net.appendHex (net.group p e1)
                          ++ net.printGroups fuel p (e1 + 2) e0 e1)%string
          else ("" ++ net.appendHex (net.group p 0)
                   ++ net.printGroups fuel p (0 + 2) e0 e1)%string).
  destruct (0 =? e0).
  - destruct (net.IPv6len <=? e1); discriminate.
  - simpl. apply append_nonempty_l, appendHex_nonempty.
Qed.

(** The text of an address is never empty. *)
Lemma String_nonempty (ip : net.IP) : net.String ip <> "".
Proof.
  unfold net.String.
  destruct (net.len ip =? 0); [discriminate|].
  destruct (net.To4 ip).
  - apply append_nonempty_r. discriminate.
  - destruct (negb (net.len ip =? net.IPv6len)); [discriminate|].
    destruct (net.longestRun 8 ip 0 (-1) (-1)) as [e0 e1].
    destruct (e1 - e0 <=? 2); apply printGroups_nonempty.
Qed.

Lemma IPString_nonempty (iip : interfaceIP.t) : interfaceIP.IPString iip <> "".
Proof.
  unfold interfaceIP.IPString. destruct (interfaceIP.To4 iip);
    apply String_nonempty.
Qed.

Lemma findIPWithSpecs_result (specs : list interfaceSpec.t)
      (ips : list interfaceIP.t) :
  (fst (findIPWithSpecs specs ips) <> ""
   /\ snd (findIPWithSpecs specs ips) = None)
  \/ (fst (findIPWithSpecs specs ips) = ""
      /\ snd (findIPWithSpecs specs ips) <> None).
Proof.
  destruct (selection_parts specs ips) as [[-> _] | (iip & ->)]; simpl.
  - right. split; [reflexivity | discriminate].
  - left. split; [apply IPString_nonempty | reflexivity].
Qed.

(** X9.  [GetIP] returns either an address and no error, or an error and
    the empty string, never both and never neither: the address returned
    is not the empty string, whatever the host and the specification
    list. *)
Theorem resolution_gives_address_or_error :
  forall (h : host) (specList : list string),
    let '(ip, err) := fst (GetIP h specList) in
    (ip <> "" /\ err = None) \/ (ip = "" /\ err <> None).
Proof.
  intros h specList. rewrite GetIP_paths.
  destruct (parseInterfaceSpecs (orDefault specList)) as [[specs [e|]] t0].
  { simpl. right. split; [reflexivity | discriminate]. }
  destruct (Interfaces h) as [interfaces [e|]].
  { simpl. right. split; [reflexivity | discriminate]. }
  destruct (getinterfaceIPs interfaces) as [[ips ierr] t1].
  pose proof (findIPWithSpecs_result specs ips) as R.
  destruct ierr as [e|]; [destruct ips as [|a ips]|]; simpl.
  - right. split; [reflexivity | discriminate].
  - destruct (findIPWithSpecs specs (a :: ips)); exact R.
  - destruct (findIPWithSpecs specs ips); exact R.
Qed.

(** ** The enumeration, piece by piece *)

Lemma flat_map_app_l {A B : Type} (f : A -> list B) (l1 l2 : list A) :
  flat_map f (l1 ++ l2) = flat_map f l1 ++ flat_map f l2.
Proof.
  induction l1 as [|a l1 IH]; simpl; auto. rewrite IH, app_assoc. reflexivity.
Qed.

Lemma splitLoop_spec (name : string) (pieces : list string)
      (ips : list interfaceIP.t) (errs : list string) :
  splitLoop name pieces ips errs
  = (ips ++ pieceAddrs name pieces, errs ++ pieceErrors pieces).
Proof.
  revert ips errs; induction pieces as [|p pieces IH]; intros ips errs.
  - simpl. rewrite !app_nil_r. reflexivity.
  - unfold pieceAddrs, pieceErrors in *. simpl.
    destruct (net.ParseCIDR p) as [[ip n] [e|]]; rewrite IH; simpl;
      rewrite <- ?app_assoc; reflexivity.
Qed.

Lemma addrLoop_spec (name : string) (ipAddrs : list string)
      (ips : list interfaceIP.t) (errs : list string) :
  addrLoop name ipAddrs ips errs
  = (ips ++ pieceAddrs name
              (flat_map (fun a => strings.Split1 a " ") ipAddrs),
     errs ++ pieceErrors (flat_map (fun a => strings.Split1 a " ") ipAddrs)).
Proof.
  revert ips errs; induction ipAddrs as [|a ipAddrs IH]; intros ips errs.
  - simpl. rewrite !app_nil_r. reflexivity.
  - simpl. rewrite splitLoop_spec, IH.
    unfold pieceAddrs, pieceErrors. rewrite !flat_map_app_l, <- !app_assoc.
    reflexivity.
Qed.

Lemma intfLoop_spec (interfaces : list net.Interface)
      (ips : list interfaceIP.t) (errs : list string) :
  intfLoop interfaces ips errs
  = ((ips ++ flat_map intfAddrs interfaces,
      errs ++ flat_map intfErrors interfaces),
     map (fun intf => CallAddrs (net.Name intf)) interfaces).
Proof.
  revert ips errs; induction interfaces as [|intf rest IH]; intros ips errs.
  - simpl. rewrite !app_nil_r. reflexivity.
  - simpl. unfold bind, intf_Addrs, emit, ret, intfAddrs, intfErrors,
      intfPieces. simpl.
    destruct (net.Addrs intf) as [ipAddrs [e|]].
    + rewrite IH. simpl. rewrite <- !app_assoc. reflexivity.
    + rewrite addrLoop_spec, IH. simpl. rewrite <- !app_assoc. reflexivity.
Qed.

(** X10.  [getinterfaceIPs] asks every interface for its addresses exactly
    once, in the order of the list, also after an interface or an address
    has failed; besides that it only prints the accumulated error, once,
    when there is one. *)
Theorem enumeration_asks_every_interface_once :
  forall interfaces : list net.Interface,
    snd (getinterfaceIPs interfaces)
    = map (fun intf => CallAddrs (net.Name intf)) interfaces
        ++ match snd (fst (getinterfaceIPs interfaces)) with
           | Some err => [Println err]
           | None => []
           end.
Proof.
  intros interfaces. rewrite getinterfaceIPs_spec.
  unfold gathered. rewrite intfLoop_spec. simpl.
  destruct (flat_map intfErrors interfaces); simpl;
    rewrite ?app_nil_r; reflexivity.
Qed.

(** X11.  What the enumeration gathers before it sorts is, interface by
    interface in the order given and piece by piece in the order
    reported, one address for every piece that is a CIDR text, under the
    name of its interface, and one error for every interface that cannot
    be read and for every piece that is no CIDR text; an interface that
    cannot be read gives no address.  So gathering a list of interfaces in
    two parts and joining the results gives the same. *)
Theorem enumeration_gathers_in_order :
  forall interfaces : list net.Interface,
    gathered interfaces
    = (flat_map intfAddrs interfaces, flat_map intfErrors interfaces)
    /\ (forall more : list net.Interface,
           gathered (interfaces ++ more)
           = (fst (gathered interfaces) ++ fst (gathered more),
              snd (gathered interfaces) ++ snd (gathered more))).
Proof.
  assert (G : forall l, gathered l
                        = (flat_map intfAddrs l, flat_map intfErrors l)).
  { intros l. unfold gathered. rewrite intfLoop_spec. reflexivity. }
  intros interfaces. split; [apply G|].
  intros more. rewrite !G. simpl. rewrite !flat_map_app_l. reflexivity.
Qed.

Lemma pieces_accounted (name : string) (pieces : list string) :
  (List.length (pieceAddrs name pieces) + List.length (pieceErrors pieces)
   = List.length pieces)%nat.
Proof.
  unfold pieceAddrs, pieceErrors.
  induction pieces as [|p pieces IH]; simpl; auto.
  destruct (net.ParseCIDR p) as [[ip n] [e|]]; simpl; lia.
Qed.

(** X12.  Nothing is dropped without a trace: the addresses and the errors
    gathered are together as many as the interfaces that cannot be read
    plus the pieces reported by those that can. *)
Theorem enumeration_accounts_for_every_piece :
  forall interfaces : list net.Interface,
    (List.length (fst (gathered interfaces))
     + List.length (snd (gathered interfaces))
     = list_sum (map (fun intf =>
                        match net.Addrs intf with
                        | (_, Some _) => 1
                        | (_, None) => List.length (intfPieces intf)
                        end) interfaces))%nat.
Proof.
  intros interfaces. unfold gathered. rewrite intfLoop_spec. simpl.
  induction interfaces as [|intf rest IH]; simpl; auto.
  rewrite !length_app.
  assert (E : (List.length (intfAddrs intf) + List.length (intfErrors intf)
               = match net.Addrs intf with
                 | (_, Some _) => 1
                 | (_, None) => List.length (intfPieces intf)
                 end)%nat).
  { unfold intfAddrs, intfErrors, intfPieces.
    destruct (net.Addrs intf) as [ipAddrs [e|]]; simpl; auto.
    apply pieces_accounted. }
  lia.
Qed.

(** ** The order of [ByInterfaceThenIP] *)

Lemma u8_inj (a b : byte) : u8 a = u8 b -> a = b.
Proof.
  unfold u8. intros H. apply N2Z.inj in H.
  assert (E : Byte.of_N (Byte.to_N a) = Byte.of_N (Byte.to_N b))
    by (rewrite H; reflexivity).
  rewrite !Byte.of_to_N in E. injection E; auto.
Qed.

Lemma map_u8_inj (a b : list byte) : map u8 a = map u8 b -> a = b.
Proof.
  revert b; induction a as [|x a IH]; intros [|y b]; simpl; try discriminate;
    auto.
  intros [= H1 H2]. f_equal; auto using u8_inj.
Qed.

Lemma nameKey_inj (a b : interfaceIP.t) :
  nameKey a = nameKey b -> interfaceIP.Name a = interfaceIP.Name b.
Proof.
  unfold nameKey. intros H. apply map_code_inj in H.
  rewrite <- (string_of_list_ascii_of_string (interfaceIP.Name a)),
          <- (string_of_list_ascii_of_string (interfaceIP.Name b)), H.
  reflexivity.
Qed.

Lemma ipCompare_refl_keys (a b : interfaceIP.t) :
  nameKey a = nameKey b -> bytesKey a = bytesKey b -> ipCompare a b = Eq.
Proof.
  unfold ipCompare. intros -> ->.
  replace (lex_compare _ (nameKey b) (nameKey b)) with Eq
    by (symmetry; apply lexZ_eq; reflexivity).
  apply lexZ_eq; reflexivity.
Qed.

(** X13.  [Less] is the strict order a sort needs: no address is less than
    itself, two addresses are never each less than the other, the order is
    transitive, and the addresses it leaves unordered are exactly those
    with the same interface name and the same 16-byte form, so that
    being unordered is transitive too. *)
Theorem Less_is_a_strict_weak_order :
  (forall a, ByInterfaceThenIP.Less a a = false)
  /\ (forall a b, ByInterfaceThenIP.Less a b = true ->
                  ByInterfaceThenIP.Less b a = false)
  /\ (forall a b c, ByInterfaceThenIP.Less a b = true ->
                    ByInterfaceThenIP.Less b c = true ->
                    ByInterfaceThenIP.Less a c = true)
  /\ (forall a b, unordered ByInterfaceThenIP.Less a b = true
                  <-> interfaceIP.Name a = interfaceIP.Name b
                      /\ ByInterfaceThenIP.bytes16 a
                         = ByInterfaceThenIP.bytes16 b).
Proof.
  split; [|split; [|split]].
  - intros a. rewrite Less_ipCompare, ipCompare_refl_keys; reflexivity.
  - exact Less_asym.
  - intros a b c. rewrite !Less_ipCompare.
    destruct (ipCompare a b) eqn:E1; try discriminate.
    destruct (ipCompare b c) eqn:E2; try discriminate.
    rewrite (ipCompare_lt_trans _ _ _ E1 E2). reflexivity.
  - intros a b. unfold unordered.
    rewrite !Less_ipCompare, (ipCompare_antisym a b). split.
    + destruct (ipCompare a b) eqn:E; try discriminate. intros _.
      apply ipCompare_eq in E as [K1 K2]. split.
      * apply nameKey_inj; exact K1.
      * apply map_u8_inj. exact K2.
    + intros [N B].
      rewrite (ipCompare_refl_keys a b); [reflexivity | |].
      * unfold nameKey. rewrite N. reflexivity.
      * unfold bytesKey. rewrite B. reflexivity.
Qed.

(** [10.0.0.5] on [eth0] is less than [fe80::1] on [eth0], which is less
    than [10.0.0.1] on [eth1]. *)
Lemma Less_is_a_strict_weak_order_witness :
  let a := addr "eth0" "10.0.0.5/24" in
  let b := addr "eth0" "fe80::1/64" in
  let c := addr "eth1" "10.0.0.1/24" in
  ByInterfaceThenIP.Less a b = true /\ ByInterfaceThenIP.Less b c = true
  /\ ByInterfaceThenIP.Less b a = false /\ ByInterfaceThenIP.Less a c = true.
Proof.
  split; [reflexivity|]. split; [reflexivity|]. split.
  - exact (proj1 (proj2 Less_is_a_strict_weak_order)
             (addr "eth0" "10.0.0.5/24") (addr "eth0" "fe80::1/64") eq_refl).
  - exact (proj1 (proj2 (proj2 Less_is_a_strict_weak_order))
             (addr "eth0" "10.0.0.5/24") (addr "eth0" "fe80::1/64")
             (addr "eth1" "10.0.0.1/24") eq_refl eq_refl).
Defined.

Lemma StronglySorted_filter_keep {A : Type} (R : A -> A -> Prop)
      (p : A -> bool) (l : list A) :
  StronglySorted R l -> StronglySorted R (filter p l).
Proof.
  induction 1 as [|a l S IH F]; simpl; [constructor|].
  destruct (p a); auto. constructor; auto.
  rewrite Forall_forall in *. intros x Hx. apply filter_In in Hx as [Hx _].
  auto.
Qed.

Lemma find_first {A : Type} (q : A -> bool) (l : list A) (a : A) :
  find q l = Some a ->
  exists l1 l2, l = l1 ++ a :: l2 /\ q a = true
                /\ Forall (fun x => q x = false) l1.
Proof.
  induction l as [|x l IH]; simpl; [discriminate|].
  destruct (q x) eqn:Q.
  - intros [= <-]. exists [], l. auto.
  - intros H. destruct (IH H) as (l1 & l2 & -> & Qa & F).
    exists (x :: l1), l2. auto.
Qed.

(** X14.  On a sorted address list the rule of a bare interface name
    selects the lowest IPv4 address of the interface: the address it
    returns is an IPv4 address of that interface in the list, and no IPv4
    address of the interface in the list has a smaller 16-byte form. *)
Theorem bare_name_selects_lowest_ipv4 :
  forall (s : string) (ips : list interfaceIP.t) (ip : string),
    isBareName s = true ->
    StronglySorted ipLe ips ->
    findIPWithSpecs [fst (parseInterfaceSpec s)] ips = (ip, None) ->
    exists a,
      ip = interfaceIP.IPString a
      /\ In a ips /\ interfaceIP.Name a = s /\ interfaceIP.IsIPv4 a = true
      /\ forall b, In b ips -> interfaceIP.Name b = s ->
                   interfaceIP.IsIPv4 b = true ->
                   bytes.Compare (ByInterfaceThenIP.bytes16 a)
                                 (ByInterfaceThenIP.bytes16 b) <= 0.
Proof.
  intros s ips ip B S R.
  rewrite (parse_bare s B) in R. simpl fst in R.
  rewrite (bare_selection s ips B) in R.
  destruct (find interfaceIP.IsIPv4 (onInterface s ips)) as [a|] eqn:F;
    [|discriminate].
  injection R as <-. exists a.
  assert (SF : StronglySorted ipLe (onInterface s ips))
    by (apply StronglySorted_filter_keep; exact S).
  destruct (find_first _ _ _ F) as (l1 & l2 & E & Qa & N1).
  assert (Ia : In a (onInterface s ips))
    by (rewrite E; apply in_or_app; right; left; reflexivity).
  apply filter_In in Ia as [Ia Na]. apply String.eqb_eq in Na.
  repeat split; auto.
  intros b Ib Nb Qb.
  assert (Ib' : In b (onInterface s ips)).
  { apply filter_In. split; auto. apply String.eqb_eq; exact Nb. }
  rewrite E in Ib', SF.
  apply StronglySorted_app_inv in SF as (_ & S2 & _).
  apply StronglySorted_inv in S2 as [_ F2].
  assert (L : ipLe a b \/ a = b).
  { apply in_app_or in Ib' as [H|[H|H]]; auto.
    - rewrite Forall_forall in N1. rewrite (N1 b H) in Qb. discriminate.
    - left. rewrite Forall_forall in F2. auto. }
  destruct L as [[L|[_ L]]| <-]; auto.
  - rewrite Na, Nb in L.
    assert (Z0 : strings.Compare s s = 0) by (apply strings_Compare_eq; auto).
    lia.
  - unfold bytes.Compare.
    replace (lex_compare u8 _ _) with Eq; [simpl; lia|].
    symmetry. rewrite lex_compare_map. apply lexZ_eq. reflexivity.
Qed.

Lemma bare_name_selects_lowest_ipv4_witness :
  let ips := [addr "eth0" "10.0.0.5/24"; addr "eth0" "10.0.0.6/24"] in
  isBareName "eth0" = true
  /\ StronglySorted ipLe ips
  /\ findIPWithSpecs [fst (parseInterfaceSpec "eth0")] ips = ("10.0.0.5", None)
  /\ exists a,
      "10.0.0.5" = interfaceIP.IPString a
      /\ In a ips /\ interfaceIP.Name a = "eth0"
      /\ interfaceIP.IsIPv4 a = true
      /\ forall b, In b ips -> interfaceIP.Name b = "eth0" ->
                   interfaceIP.IsIPv4 b = true ->
                   bytes.Compare (ByInterfaceThenIP.bytes16 a)
                                 (ByInterfaceThenIP.bytes16 b) <= 0.
Proof.
  assert (S : StronglySorted ipLe
                [addr "eth0" "10.0.0.5/24"; addr "eth0" "10.0.0.6/24"]).
  { constructor.
    - constructor; [constructor | constructor].
    - constructor; [|constructor].
      right. split; [reflexivity | vm_compute; discriminate]. }
  split; [reflexivity|]. split; [exact S|]. split; [reflexivity|].
  exact (bare_name_selects_lowest_ipv4 "eth0" _ "10.0.0.5" eq_refl S eq_refl).
Defined.

(** ** [Len] and [Swap] *)

Lemma assign_length (se : list interfaceIP.t) (n : nat) (x : interfaceIP.t) :
  List.length (ByInterfaceThenIP.assign se n x) = List.length se.
Proof.
  revert n; induction se as [|a se IH]; intros [|n]; simpl; auto.
Qed.

Lemma nth_error_assign (se : list interfaceIP.t) (n k : nat)
      (x : interfaceIP.t) :
  (n < List.length se)%nat ->
  nth_error (ByInterfaceThenIP.assign se n x) k
  = if (k =? n)%nat then Some x else nth_error se k.
Proof.
  revert n k; induction se as [|a se IH]; intros [|n] [|k] L; simpl in *;
    try lia; auto.
  apply IH. lia.
Qed.

Lemma Swap_in_range (se : list interfaceIP.t) (i j : Z) :
  0 <= i < ByInterfaceThenIP.Len se -> 0 <= j < ByInterfaceThenIP.Len se ->
  exists x y,
    nth_error se (Z.to_nat i) = Some x /\ nth_error se (Z.to_nat j) = Some y
    /\ ByInterfaceThenIP.Swap se i j
       = Some (ByInterfaceThenIP.assign
                 (ByInterfaceThenIP.assign se (Z.to_nat i) y) (Z.to_nat j) x).
Proof.
  unfold ByInterfaceThenIP.Len, net.len, ByInterfaceThenIP.Swap.
  intros Hi Hj.
  replace (i <? 0) with false by (symmetry; apply Z.ltb_ge; lia).
  replace (j <? 0) with false by (symmetry; apply Z.ltb_ge; lia).
  simpl orb. cbv iota.
  destruct (nth_error se (Z.to_nat i)) as [x|] eqn:Ex;
    [|apply nth_error_None in Ex; lia].
  destruct (nth_error se (Z.to_nat j)) as [y|] eqn:Ey;
    [|apply nth_error_None in Ey; lia].
  exists x, y. auto.
Qed.

(** X15.  [Swap] on two indexes within the slice exchanges the two
    elements and leaves the others, so the slice keeps its length and its
    elements, and swapping again gives the slice back; with an index out
    of range it panics. *)
Theorem Swap_exchanges_two_elements :
  forall (se : list interfaceIP.t) (i j : Z),
    (0 <= i < ByInterfaceThenIP.Len se /\ 0 <= j < ByInterfaceThenIP.Len se ->
     exists se',
       ByInterfaceThenIP.Swap se i j = Some se'
       /\ ByInterfaceThenIP.Len se' = ByInterfaceThenIP.Len se
       /\ (forall k : nat,
              nth_error se' k
              = nth_error se (if (k =? Z.to_nat i)%nat then Z.to_nat j
                              else if (k =? Z.to_nat j)%nat then Z.to_nat i
                                   else k))
       /\ Permutation se se'
       /\ ByInterfaceThenIP.Swap se' i j = Some se)
    /\ (~ (0 <= i < ByInterfaceThenIP.Len se
           /\ 0 <= j < ByInterfaceThenIP.Len se) ->
        ByInterfaceThenIP.Swap se i j = None).
Proof.
  intros se i j. split.
  - intros [Hi Hj].
    destruct (Swap_in_range se i j Hi Hj) as (x & y & Ex & Ey & E).
    set (i' := Z.to_nat i) in *. set (j' := Z.to_nat j) in *.
    assert (Li : (i' < List.length se)%nat)
      by (apply nth_error_Some; congruence).
    assert (Lj : (j' < List.length se)%nat)
      by (apply nth_error_Some; congruence).
    set (se' := ByInterfaceThenIP.assign
                  (ByInterfaceThenIP.assign se i' y) j' x) in *.
    assert (Len' : List.length se' = List.length se)
      by (unfold se'; rewrite !assign_length; reflexivity).
    assert (P : forall k,
               nth_error se' k
               = nth_error se (if (k =? i')%nat then j'
                               else if (k =? j')%nat then i' else k)).
    { intros k. unfold se'.
      rewrite nth_error_assign by (rewrite assign_length; exact Lj).
      rewrite nth_error_assign by exact Li.
      destruct (Nat.eqb_spec k j') as [Kj|Nj].
      - rewrite Kj. destruct (Nat.eqb_spec j' i') as [Q|Q]; congruence.
      - destruct (Nat.eqb_spec k i') as [Ki|Ni]; congruence. }
    exists se'. split; [exact E|]. split.
    { unfold ByInterfaceThenIP.Len, net.len. rewrite Len'. reflexivity. }
    split; [exact P|]. split.
    + apply Permutation_nth_error. split; [symmetry; exact Len'|].
      exists (fun k => if (k =? i')%nat then j'
                       else if (k =? j')%nat then i' else k).
      split; [|exact P].
      intros a b.
      destruct (Nat.eqb_spec a i'), (Nat.eqb_spec a j'),
        (Nat.eqb_spec b i'), (Nat.eqb_spec b j'); congruence.
    + assert (Hi' : 0 <= i < ByInterfaceThenIP.Len se')
        by (unfold ByInterfaceThenIP.Len, net.len in *; lia).
      assert (Hj' : 0 <= j < ByInterfaceThenIP.Len se')
        by (unfold ByInterfaceThenIP.Len, net.len in *; lia).
      destruct (Swap_in_range se' i j Hi' Hj') as (x' & y' & Ex' & Ey' & E').
      fold i' j' in Ex', Ey', E'. rewrite E'. f_equal.
      apply nth_error_ext. intros k.
      rewrite nth_error_assign by (rewrite assign_length; lia).
      rewrite nth_error_assign by lia.
      rewrite P in Ex', Ey'. rewrite Nat.eqb_refl in Ex'.
      destruct (Nat.eqb_spec k j') as [Kj|Nj].
      * rewrite Kj. symmetry. exact Ex'.
      * destruct (Nat.eqb_spec k i') as [Ki|Ni].
        -- rewrite Ki. rewrite Ki in Nj.
           destruct (Nat.eqb_spec j' i') as [Q|Q]; [congruence|].
           rewrite Nat.eqb_refl in Ey'. symmetry. exact Ey'.
        -- rewrite P.
           destruct (Nat.eqb_spec k i'); [congruence|].
           destruct (Nat.eqb_spec k j'); [congruence|]. reflexivity.
  - intros H. unfold ByInterfaceThenIP.Swap.
    destruct (Z.ltb_spec i 0); [reflexivity|].
    destruct (Z.ltb_spec j 0); [reflexivity|]. simpl.
    destruct (nth_error se (Z.to_nat i)) as [x|] eqn:Ex; [|reflexivity].
    destruct (nth_error se (Z.to_nat j)) as [y|] eqn:Ey; [|reflexivity].
    exfalso. apply H.
    assert ((Z.to_nat i < List.length se)%nat)
      by (apply nth_error_Some; congruence).
    assert ((Z.to_nat j < List.length se)%nat)
      by (apply nth_error_Some; congruence).
    unfold ByInterfaceThenIP.Len, net.len. lia.
Qed.

Lemma Swap_exchanges_two_elements_witness :
  let a := addr "eth0" "10.0.0.5/24" in
  let b := addr "eth0" "10.0.0.6/24" in
  let c := addr "eth1" "192.168.5.5/24" in
  (0 <= 0 < ByInterfaceThenIP.Len [a; b; c]
   /\ 0 <= 2 < ByInterfaceThenIP.Len [a; b; c])
  /\ ByInterfaceThenIP.Swap [a; b; c] 0 2 = Some [c; b; a]
  /\ (exists se',
         ByInterfaceThenIP.Swap [a; b; c] 0 2 = Some se'
         /\ ByInterfaceThenIP.Len se' = ByInterfaceThenIP.Len [a; b; c]
         /\ Permutation [a; b; c] se'
         /\ ByInterfaceThenIP.Swap se' 0 2 = Some [a; b; c])
  /\ ~ (0 <= 1 < ByInterfaceThenIP.Len [a; b; c]
        /\ 0 <= 3 < ByInterfaceThenIP.Len [a; b; c])
  /\ ByInterfaceThenIP.Swap [a; b; c] 1 3 = None.
Proof.
  assert (R : 0 <= 0 < ByInterfaceThenIP.Len
                         [addr "eth0" "10.0.0.5/24"; addr "eth0" "10.0.0.6/24";
                          addr "eth1" "192.168.5.5/24"]
              /\ 0 <= 2 < ByInterfaceThenIP.Len
                            [addr "eth0" "10.0.0.5/24";
                             addr "eth0" "10.0.0.6/24";
                             addr "eth1" "192.168.5.5/24"])
    by (vm_compute; repeat split; discriminate).
  assert (O : ~ (0 <= 1 < ByInterfaceThenIP.Len
                            [addr "eth0" "10.0.0.5/24";
                             addr "eth0" "10.0.0.6/24";
                             addr "eth1" "192.168.5.5/24"]
                 /\ 0 <= 3 < ByInterfaceThenIP.Len
                               [addr "eth0" "10.0.0.5/24";
                                addr "eth0" "10.0.0.6/24";
                                addr "eth1" "192.168.5.5/24"])).
  { vm_compute. intros [_ [_ H]]. discriminate H. }
  split; [exact R|]. split; [reflexivity|]. split.
  { destruct (proj1 (Swap_exchanges_two_elements _ 0 2) R)
      as (se' & E & L & _ & P & B).
    exists se'. auto. }
  split; [exact O|].
  exact (proj2 (Swap_exchanges_two_elements _ 1 3) O).
Defined.

(** ** The display string of an IPv4 address *)

Lemma To4_length (ip v4 : net.IP) :
  net.To4 ip = Some v4 -> List.length v4 = 4%nat.
Proof.
  unfold net.To4.
  destruct (net.len ip =? net.IPv4len) eqn:E4.
  - intros [= <-]. apply Z.eqb_eq in E4.
    unfold net.len, net.IPv4len in E4. lia.
  - destruct (_ && _) eqn:C; [|discriminate].
    intros H. assert (E : v4 = skipn 12 ip) by congruence.
    rewrite E, length_skipn.
    rewrite !andb_true_iff in C. destruct C as [[[C _] _] _].
    apply Z.eqb_eq in C. unfold net.len, net.IPv6len in C. lia.
Qed.

(** X16.  The display string of an address that is an IPv4 address, in
    its 4-byte form or in its 16-byte form, is the dotted decimal text of
    the four bytes [To4] gives. *)
Theorem ipv4_displays_as_dotted_quad :
  forall iip : interfaceIP.t,
    interfaceIP.IsIPv4 iip = true ->
    exists a b c d : byte,
      interfaceIP.To4 iip = Some [a; b; c; d]
      /\ interfaceIP.IPString iip
         = (net.uitoa (u8 a) ++ "." ++ net.uitoa (u8 b) ++ "."
              ++ net.uitoa (u8 c) ++ "." ++ net.uitoa (u8 d))%string.
Proof.
  intros iip. unfold interfaceIP.IsIPv4, interfaceIP.IPString.
  destruct (interfaceIP.To4 iip) as [v4|] eqn:E; [|discriminate]. intros _.
  pose proof (To4_length _ _ E) as L.
  destruct v4 as [|a [|b [|c [|d [|x v4]]]]]; try discriminate.
  exists a, b, c, d. split; reflexivity.
Qed.

Lemma ipv4_displays_as_dotted_quad_witness :
  interfaceIP.IsIPv4 (addr "eth0" "192.168.5.5/24") = true
  /\ List.length (interfaceIP.IP (addr "eth0" "192.168.5.5/24")) = 16%nat
  /\ exists a b c d : byte,
      interfaceIP.To4 (addr "eth0" "192.168.5.5/24") = Some [a; b; c; d]
      /\ interfaceIP.IPString (addr "eth0" "192.168.5.5/24")
         = (net.uitoa (u8 a) ++ "." ++ net.uitoa (u8 b) ++ "."
              ++ net.uitoa (u8 c) ++ "." ++ net.uitoa (u8 d))%string.
Proof.
  split; [reflexivity|]. split; [reflexivity|].
  exact (ipv4_displays_as_dotted_quad (addr "eth0" "192.168.5.5/24") eq_refl).
Defined.

(** ** Rules as fallbacks *)

Lemma findFirst_app (a b : list interfaceSpec.t) (ips : list interfaceIP.t) :
  findFirst (a ++ b) ips
  = match findFirst a ips with
    | Some ip => Some ip
    | None => findFirst b ips
    end.
Proof.
  induction a as [|spec a IH]; simpl; auto.
  destruct (scan spec ips 0 ""); auto.
Qed.

(** X17.  Rules later in the list are fallbacks: the result for a list of
    rules followed by more rules is the result for the first list when
    that is an address; otherwise it is the result for the rules that
    follow when that is an address, and otherwise the no-match error,
    which names all the rules. *)
Theorem later_rules_are_fallbacks :
  forall (a b : list interfaceSpec.t) (ips : list interfaceIP.t),
    findIPWithSpecs (a ++ b) ips
    = match findIPWithSpecs a ips with
      | (ip, None) => (ip, None)
      | (_, Some _) =>
          match findIPWithSpecs b ips with
          | (ip, None) => (ip, None)
          | (_, Some _) => ("", Some (noMatchError (a ++ b) ips))
          end
      end.
Proof.
  intros a b ips. unfold findIPWithSpecs. rewrite findFirst_app.
  destruct (findFirst a ips); [reflexivity|].
  destruct (findFirst b ips); reflexivity.
Qed.

(** X18.  On a host that reports its interfaces without error but has no
    address at all, resolution with rules that parse fails with the
    no-match error, which lists the rules and an empty address list. *)
Theorem no_address_no_match :
  forall (h : host) (specList : list string) (interfaces : list net.Interface),
    failureMessages (orDefault specList) = [] ->
    Interfaces h = (interfaces, None) ->
    gathered interfaces = ([], []) ->
    fst (GetIP h specList)
    = ("", Some (noMatchError (parsedRules (orDefault specList)) [])).
Proof.
  intros h specList interfaces P I G.
  rewrite GetIP_paths, parseInterfaceSpecs_spec, P, I, getinterfaceIPs_spec, G.
  simpl. unfold findIPWithSpecs.
  change (sort.Stable interfaceIP.t ByInterfaceThenIP.Less [])
    with (@nil interfaceIP.t).
  replace (findFirst (parsedRules (orDefault specList)) []) with (@None string);
    [reflexivity|].
  induction (parsedRules (orDefault specList)) as [|spec l IH]; simpl; auto.
Qed.

Lemma no_address_no_match_witness :
  let h := hostOf [("eth0", [])] in
  failureMessages (orDefault ["eth0"; "inet"]) = []
  /\ Interfaces h = ([net.mkInterface "eth0" ([], None)], None)
  /\ gathered [net.mkInterface "eth0" ([], None)] = ([], [])
  /\ fst (GetIP h ["eth0"; "inet"])
     = ("", Some (noMatchError (parsedRules (orDefault ["eth0"; "inet"])) [])).
Proof.
  split; [reflexivity|]. split; [reflexivity|]. split; [reflexivity|].
  exact (no_address_no_match (hostOf [("eth0", [])]) ["eth0"; "inet"]
           [net.mkInterface "eth0" ([], None)] eq_refl eq_refl eq_refl).
Defined.

(** ** Wildcard rules, the counter, the batch *)

Lemma find_same {A : Type} (p q : A -> bool) (l : list A) :
  (forall a, p a = q a) -> find p l = find q l.
Proof.
  intros H. induction l as [|a l IH]; simpl; auto.
  rewrite H, IH. reflexivity.
Qed.

(** X19.  The rule of ["inet"] selects the first address of the list that
    is an IPv4 address and no loopback address, on whatever interface it
    is, and the rule of ["inet6"] the first that is neither an IPv4
    address nor a loopback address; each fails with the no-match error
    when there is none. *)
Theorem wildcard_selects_first_of_its_version :
  forall ips : list interfaceIP.t,
    findIPWithSpecs [fst (parseInterfaceSpec "inet")] ips
    = match find (fun iip => negb (net.IsLoopback (interfaceIP.IP iip))
                             && interfaceIP.IsIPv4 iip) ips with
      | Some iip => (interfaceIP.IPString iip, None)
      | None =>
          ("", Some (noMatchError [fst (parseInterfaceSpec "inet")] ips))
      end
    /\ findIPWithSpecs [fst (parseInterfaceSpec "inet6")] ips
       = match find (fun iip => negb (net.IsLoopback (interfaceIP.IP iip))
                                && negb (interfaceIP.IsIPv4 iip)) ips with
         | Some iip => (interfaceIP.IPString iip, None)
         | None =>
             ("", Some (noMatchError [fst (parseInterfaceSpec "inet6")] ips))
         end.
Proof.
  intros ips. split.
  - rewrite selection_without_index by reflexivity.
    rewrite (find_same _ (fun iip => negb (net.IsLoopback (interfaceIP.IP iip))
                                    && interfaceIP.IsIPv4 iip))
      by (intros a; apply Match_inet).
    reflexivity.
  - rewrite selection_without_index by reflexivity.
    rewrite (find_same _ (fun iip => negb (net.IsLoopback (interfaceIP.IP iip))
                                    && negb (interfaceIP.IsIPv4 iip)))
      by (intros a; apply Match_inet6).
    reflexivity.
Qed.

Lemma counters_bounded (ips : list interfaceIP.t) :
  forall (i : Z) (f : string),
    0 <= i -> i + net.len ips <= MaxInt ->
    Forall (fun c => 0 <= c <= i + net.len ips) (counters ips i f).
Proof.
  unfold net.len.
  induction ips as [|a ips IH]; intros i f Hi B; simpl; [constructor|].
  change (List.length (a :: ips)) with (S (List.length ips)) in B.
  unfold advance.
  destruct (negb (f =? interfaceIP.Name a)%string).
  - constructor; [lia|].
    eapply Forall_impl; [|apply (IH 0 (interfaceIP.Name a)); lia].
    simpl. intros c Hc. lia.
  - rewrite int_wrap_small by lia. constructor; [lia|].
    eapply Forall_impl; [|apply (IH (i + 1) f); lia].
    simpl. intros c Hc. lia.
Qed.

(** X20.  The counter never leaves the range of an [int]: over a list of at
    most [MaxInt] addresses (the most a slice holds) every value it takes
    is between 0 and the length of the list, so its increment never wraps
    around. *)
Theorem counter_stays_in_range :
  forall ips : list interfaceIP.t,
    net.len ips <= MaxInt ->
    Forall (fun p => 0 <= snd p <= net.len ips) (counted ips).
Proof.
  intros ips B.
  assert (C : Forall (fun c => 0 <= c <= net.len ips) (counters ips 0 ""))
    by (apply (counters_bounded ips 0 ""); lia).
  unfold counted. rewrite Forall_forall in *.
  intros [a c] H. apply in_combine_r in H. simpl. auto.
Qed.

Lemma counter_stays_in_range_witness :
  let ips := [addr "" "10.0.0.5/24"; addr "" "10.0.0.6/24"] in
  net.len ips <= MaxInt
  /\ map snd (counted ips) = [1; 2]
  /\ Forall (fun p => 0 <= snd p <= net.len ips) (counted ips).
Proof.
  assert (B : net.len [addr "" "10.0.0.5/24"; addr "" "10.0.0.6/24"] <= MaxInt)
    by (vm_compute; discriminate).
  split; [exact B|]. split; [reflexivity|].
  exact (counter_stays_in_range _ B).
Defined.

(** X21.  The batch parser goes through every item: it returns no error
    exactly when every item parses, and then returns one rule for every
    item, in order, and prints nothing; in any case the rules it returns
    and the items that fail are together as many as the items, and the
    rules of two batches joined are the rules of the one followed by the
    rules of the other. *)
Theorem batch_parser_goes_through_every_item :
  forall items : list string,
    (snd (fst (parseInterfaceSpecs items)) = None
     <-> forall s, In s items -> snd (parseInterfaceSpec s) = None)
    /\ (snd (fst (parseInterfaceSpecs items)) = None ->
        parseInterfaceSpecs items
        = ((map (fun s => fst (parseInterfaceSpec s)) items, None), []))
    /\ (List.length (fst (fst (parseInterfaceSpecs items)))
        + List.length (failureMessages items) = List.length items)%nat
    /\ (forall more : list string,
           fst (fst (parseInterfaceSpecs (items ++ more)))
           = fst (fst (parseInterfaceSpecs items))
               ++ fst (fst (parseInterfaceSpecs more))).
Proof.
  intros items.
  assert (R : forall l, fst (fst (parseInterfaceSpecs l)) = parsedRules l).
  { intros l. rewrite parseInterfaceSpecs_spec.
    destruct (failureMessages l); reflexivity. }
  assert (E : snd (fst (parseInterfaceSpecs items)) = None
              <-> failureMessages items = []).
  { rewrite parseInterfaceSpecs_spec.
    destruct (failureMessages items); simpl; split; congruence. }
  split; [|split; [|split]].
  - rewrite E, failureMessages_nil, Forall_forall. reflexivity.
  - intros H. apply E in H. rewrite parseInterfaceSpecs_spec, H.
    apply failureMessages_nil in H. do 2 f_equal.
    clear E R. unfold parsedRules.
    induction H as [|s l Hs _ IH]; simpl; auto.
    destruct (parseInterfaceSpec s) as [spec [m|]]; simpl in *;
      [discriminate|]. rewrite IH. reflexivity.
  - rewrite R. unfold parsedRules, failureMessages.
    clear E R. induction items as [|s l IH]; simpl; auto.
    destruct (parseInterfaceSpec s) as [spec [m|]]; simpl;
      rewrite ?length_app; simpl; lia.
  - intros more. rewrite !R. unfold parsedRules. apply flat_map_app_l.
Qed.

Lemma batch_parser_goes_through_every_item_witness :
  snd (fst (parseInterfaceSpecs ["eth0"; "10.0.0.0/8"])) = None
  /\ parseInterfaceSpecs ["eth0"; "10.0.0.0/8"]
     = ((map (fun s => fst (parseInterfaceSpec s)) ["eth0"; "10.0.0.0/8"],
         None), []).
Proof.
  split; [reflexivity|].
  exact (proj1 (proj2 (batch_parser_goes_through_every_item
                         ["eth0"; "10.0.0.0/8"])) eq_refl).
Defined.
